(** * Chapter 9: shared variables, a bank account and a memoizing cache

    Shallow embeddings of the Go code of the chapter: the package [bank]
    of the notes ([Deposit], [Balance], [Withdraw] on a shared balance)
    and the package [memo] of [src/ch9/memo3/memo.go] ([New], [Get] on a
    cache guarded by a mutex). *)

From Stdlib Require Import ZArith.
From stdpp Require Import gmap strings list fin_maps.

(** * ch9 notes: the bank account

    The package [bank] of the chapter's notes: one shared [balance] and
    three functions.  Go's [int] is taken to be 64 bits wide, with
    two's-complement wrap-around on overflow. *)
Module bank.

Local Open Scope Z_scope.

Definition MinInt : Z := -9223372036854775808.
Definition MaxInt : Z := 9223372036854775807.

(** The values of type [int]. *)
Definition is_int (z : Z) : Prop := MinInt ≤ z ≤ MaxInt.

(** The [int] that the machine keeps of an exact result. *)
Definition wrap (z : Z) : Z :=
  (z + 9223372036854775808) mod 18446744073709551616 - 9223372036854775808.

(** [func Deposit(amount int) { balance = balance + amount }], as a
    function of the shared [var balance int]. *)
Definition Deposit (amount : Z) (balance : Z) : Z := wrap (balance + amount).

(** [func Balance() int { return balance }] *)
Definition Balance (balance : Z) : Z := balance.

(** [func Withdraw(amount int) bool]: the result and the balance left. *)
Definition Withdraw (amount : Z) (balance : Z) : bool * Z :=
  let balance := Deposit (wrap (- amount)) balance in
  if Balance balance <? 0 then (false, Deposit amount balance)
  else (true, balance).

(** ** Goroutines

    Nothing guards [balance]: the assignment in [Deposit] is a read of
    [balance + amount] followed by a write, and other goroutines may run
    in between. *)

(** The statements of [Withdraw]: [Deposit(-amount)], the test
    [Balance() < 0], and [Deposit(amount)] before [return false]. *)
Inductive line := Wdeposit | Wtest | Wrefund.

(** A goroutine runs [Deposit(amount)] or [Withdraw(amount)]; inside a
    [Deposit], [sum] holds [balance + amount] once it has been read.  A
    goroutine that has returned keeps the result of [Withdraw]. *)
Inductive goroutine :=
  | InDeposit (amount : Z) (sum : option Z)
  | InWithdraw (amount : Z) (l : line) (sum : option Z)
  | Returned (r : option bool).

Record state := mkState {
  balance : Z;
  goroutines : list goroutine
}.

(** Goroutine [t] runs its next read, write or test. *)
Definition step (t : nat) (c : state) : option state :=
  match goroutines c !! t with
  | None => None
  | Some g =>
      let put b g' := Some (mkState b (<[t := g']> (goroutines c))) in
      match g with
      | InDeposit a None =>
          put (balance c) (InDeposit a (Some (wrap (balance c + a))))
      | InDeposit a (Some v) => put v (Returned None)
      | InWithdraw a Wdeposit None =>
          put (balance c)
            (InWithdraw a Wdeposit (Some (wrap (balance c + wrap (- a)))))
      | InWithdraw a Wdeposit (Some v) => put v (InWithdraw a Wtest None)
      | InWithdraw a Wtest _ =>
          if balance c <? 0 then put (balance c) (InWithdraw a Wrefund None)
          else put (balance c) (Returned (Some true))
      | InWithdraw a Wrefund None =>
          put (balance c) (InWithdraw a Wrefund (Some (wrap (balance c + a))))
      | InWithdraw a Wrefund (Some v) => put v (Returned (Some false))
      | Returned _ => None
      end
  end.

(** A schedule, as for the cache: who moves next; a goroutine that has
    returned is skipped. *)
Fixpoint run (sched : list nat) (c : state) : state :=
  match sched with
  | [] => c
  | t :: sched' =>
      match step t c with
      | Some c' => run sched' c'
      | None => run sched' c
      end
  end.

(** Two goroutines, [Deposit(a1)] and [Deposit(a2)], on a balance [b]:
    what the balance and the sums they hold can be. *)
Definition two_deposits (b a1 a2 : Z) (c : state) : Prop :=
  match goroutines c with
  | [InDeposit x None; InDeposit y None] =>
      x = a1 ∧ y = a2 ∧ balance c = b
  | [InDeposit x (Some v); InDeposit y None] =>
      x = a1 ∧ y = a2 ∧ balance c = b ∧ v = Deposit a1 b
  | [InDeposit x None; InDeposit y (Some v)] =>
      x = a1 ∧ y = a2 ∧ balance c = b ∧ v = Deposit a2 b
  | [InDeposit x (Some v); InDeposit y (Some v')] =>
      x = a1 ∧ y = a2 ∧ balance c = b ∧ v = Deposit a1 b ∧ v' = Deposit a2 b
  | [Returned None; InDeposit y None] =>
      y = a2 ∧ balance c = Deposit a1 b
  | [InDeposit x None; Returned None] =>
      x = a1 ∧ balance c = Deposit a2 b
  | [Returned None; InDeposit y (Some v)] =>
      y = a2 ∧ balance c = Deposit a1 b ∧
      (v = Deposit a2 b ∨ v = Deposit a2 (Deposit a1 b))
  | [InDeposit x (Some v); Returned None] =>
      x = a1 ∧ balance c = Deposit a2 b ∧
      (v = Deposit a1 b ∨ v = Deposit a1 (Deposit a2 b))
  | [Returned None; Returned None] =>
      balance c = Deposit a2 (Deposit a1 b) ∨
      balance c = Deposit a1 (Deposit a2 b) ∨
      balance c = Deposit a1 b ∨ balance c = Deposit a2 b
  | _ => False
  end.

End bank.

(** * ch9/memo3: a memoizing cache guarded by a mutex

    A shallow embedding of [src/ch9/memo3/memo.go].  The Go package is
    modelled twice from the same primitives:

    - [Get] is the method body read as one sequential program in a small
      state-and-failure monad (a call that runs with no other goroutine);
    - [step] is the same body cut at its statements, one program point per
      source line, so that any number of goroutines can be interleaved.

    The mutex is Go's [sync.Mutex]: [Lock] blocks while the mutex is
    locked, [Unlock] of an unlocked mutex is a fatal run-time error that
    ends the whole process, and the mutex does not remember which
    goroutine locked it. *)

Module memo.

(** ** Data *)

(** [interface{}]: the dynamic values the callback can hand back. *)
Inductive iface :=
  | INil
  | IInt (n : Z)
  | IString (s : string).

(** [error]: [None] is Go's [nil] error. *)
Definition error := option string.

(** [type result struct { value interface{}; err error }] *)
Record result := Result { value : iface; err : error }.

(** The zero value of [result], what a map read yields for a missing key. *)
Definition zero : result := Result INil None.

Global Instance iface_eq_dec : EqDecision iface.
Proof. solve_decision. Defined.
Global Instance result_eq_dec : EqDecision result.
Proof. solve_decision. Defined.

Section World.

(** Whatever the callback may read or change outside the cache (the
    network for [httpGetBody]): the callback is a function of the key and
    of that world. *)
Context {W : Type}.

(** [type Func func(key string) (interface{}, error)] *)
Definition Func := string → W → result * W.

(** [type Memo struct { f Func; mu sync.Mutex; cache map[string]result }];
    [mu] is [true] while the mutex is locked. *)
Record Memo := mkMemo {
  f : Func;
  mu : bool;
  cache : gmap string result
}.

(** [func New(f Func) *Memo] *)
Definition New (f : Func) : Memo := mkMemo f false ∅.

(** Everything the goroutines share: the [Memo], the world of the
    callback, and two ghost logs, the keys [f] was invoked on and the
    results it handed back. *)
Record shared := mkShared {
  memo : Memo;
  world : W;
  calls : list string;
  rets : list (string * result)
}.

Definition with_mu (b : bool) (s : shared) : shared :=
  mkShared (mkMemo (f (memo s)) b (cache (memo s))) (world s) (calls s) (rets s).

Definition with_cache (c : gmap string result) (s : shared) : shared :=
  mkShared (mkMemo (f (memo s)) (mu (memo s)) c) (world s) (calls s) (rets s).

(** ** The monad of one goroutine's actions *)

Inductive outcome (A : Type) :=
  | Done (a : A) (s : shared)   (* the action finished *)
  | Fatal (s : shared)          (* fatal error: unlock of unlocked mutex *)
  | Blocked (s : shared).       (* waiting for the mutex *)
Arguments Done {A} a s.
Arguments Fatal {A} s.
Arguments Blocked {A} s.

Definition M (A : Type) : Type := shared → outcome A.

Global Instance M_ret : MRet M := λ A a s, Done a s.
Global Instance M_bind : MBind M := λ A B k m s,
  match m s with
  | Done a s' => k a s'
  | Fatal s' => Fatal s'
  | Blocked s' => Blocked s'
  end.

(** [memo.mu.Lock()] *)
Definition Lock : M unit := λ s,
  if mu (memo s) then Blocked s else Done () (with_mu true s).

(** [memo.mu.Unlock()] *)
Definition Unlock : M unit := λ s,
  if mu (memo s) then Done () (with_mu false s) else Fatal s.

(** [res, ok := memo.cache[key]] *)
Definition load (key : string) : M (result * bool) := λ s,
  match cache (memo s) !! key with
  | Some r => Done (r, true) s
  | None => Done (zero, false) s
  end.

(** [memo.cache[key] = res] *)
Definition store (key : string) (res : result) : M unit := λ s,
  Done () (with_cache (<[key := res]> (cache (memo s))) s).

(** [memo.f(key)], in two halves: the call is entered, and later it
    hands back its result.  Other goroutines may run in between. *)
Definition enter (key : string) : M unit := λ s,
  Done () (mkShared (memo s) (world s) (calls s ++ [key]) (rets s)).

Definition leave (key : string) : M result := λ s,
  let '(r, w) := f (memo s) key (world s) in
  Done r (mkShared (memo s) w (calls s) (rets s ++ [(key, r)])).

(** [func (memo *Memo) Get(key string) (interface{}, error)], lines 26-40. *)
Definition Get (key : string) : M (iface * error) :=
  Lock;;                                             (* 29 *)
  '(res, ok) ← load key;                             (* 30 *)
  Unlock;;                                           (* 31 *)
  res ← (if negb ok then                             (* 32 *)
           r ← (enter key;; leave key);              (* 33 *)
           Lock;;                                    (* 34 *)
           store key r;;                             (* 35 *)
           Unlock;;                                  (* 36 *)
           mret r
         else mret res);
  Unlock;;                                           (* 38 *)
  mret (value res, err res).                         (* 39 *)

(** ** The same body, statement by statement *)

(** Program points of [Get], named after the source line about to run.
    Line 33 is split in two: [L33] is about to invoke [memo.f], [L33f] is
    inside it.  [Halt] is after the [return]. *)
Inductive label :=
  | L29 | L30 | L31 | L32 | L33 | L33f | L34 | L35 | L36 | L38 | L39 | Halt.

Global Instance label_eq_dec : EqDecision label.
Proof. solve_decision. Defined.

(** What one goroutine did to the mutex and the callback (ghost). *)
Inductive event := EvLock | EvUnlock | EvCall | EvRet.

Global Instance event_eq_dec : EqDecision event.
Proof. solve_decision. Defined.

(** One goroutine running [memo.Get(key)]: its argument, where it is, its
    locals [res] and [ok], what it returned, and its events so far. *)
Record thread := mkThread {
  key : string;
  pc : label;
  res : result;
  ok : bool;
  out : option (iface * error);
  trace : list event
}.

(** A goroutine that has just been started on [Get(key)]. *)
Definition spawn (key : string) : thread :=
  mkThread key L29 zero false None [].

Definition goto (l : label) (th : thread) : thread :=
  mkThread (key th) l (res th) (ok th) (out th) (trace th).

Definition emit (e : event) (th : thread) : thread :=
  mkThread (key th) (pc th) (res th) (ok th) (out th) (trace th ++ [e]).

Definition set_res (r : result) (th : thread) : thread :=
  mkThread (key th) (pc th) r (ok th) (out th) (trace th).

Definition set_ok (b : bool) (th : thread) : thread :=
  mkThread (key th) (pc th) (res th) b (out th) (trace th).

Definition set_out (v : iface * error) (th : thread) : thread :=
  mkThread (key th) (pc th) (res th) (ok th) (Some v) (trace th).

(** The statement at the goroutine's program point. *)
Definition instr (th : thread) : M thread :=
  match pc th with
  | L29 => Lock;; mret (goto L30 (emit EvLock th))
  | L30 => '(r, b) ← load (key th); mret (goto L31 (set_ok b (set_res r th)))
  | L31 => Unlock;; mret (goto L32 (emit EvUnlock th))
  | L32 => mret (goto (if negb (ok th) then L33 else L38) th)
  | L33 => enter (key th);; mret (goto L33f (emit EvCall th))
  | L33f => r ← leave (key th); mret (goto L34 (emit EvRet (set_res r th)))
  | L34 => Lock;; mret (goto L35 (emit EvLock th))
  | L35 => store (key th) (res th);; mret (goto L36 th)
  | L36 => Unlock;; mret (goto L38 (emit EvUnlock th))
  | L38 => Unlock;; mret (goto L39 (emit EvUnlock th))
  | L39 => mret (goto Halt (set_out (value (res th), err (res th)) th))
  | Halt => Blocked
  end.

(** The whole process: the shared state, the goroutines, and whether the
    run-time has stopped it with a fatal error. *)
Record config := mkConfig {
  sh : shared;
  threads : list thread;
  fatal : bool
}.

(** Goroutine [t] runs its next statement.  [None]: it cannot move (it
    waits for the mutex, it has returned, there is no such goroutine, or
    the process is dead). *)
Definition step (t : nat) (c : config) : option config :=
  if fatal c then None else
  match threads c !! t with
  | None => None
  | Some th =>
      match instr th (sh c) with
      | Done th' s' => Some (mkConfig s' (<[t := th']> (threads c)) false)
      | Fatal s' => Some (mkConfig s' (threads c) true)
      | Blocked _ => None
      end
  end.

(** A schedule is the list of goroutines in the order they get to move; a
    goroutine that cannot move when scheduled is skipped. *)
Fixpoint run (sched : list nat) (c : config) : config :=
  match sched with
  | [] => c
  | t :: sched' =>
      match step t c with
      | Some c' => run sched' c'
      | None => run sched' c
      end
  end.

(** One move of some goroutine, and finitely many of them. *)
Definition moves (c c' : config) : Prop := ∃ t, step t c = Some c'.

Definition reaches : config → config → Prop := rtc moves.

(** [N] goroutines start [Get], goroutine [i] on [keys !! i], against a
    cache in state [s]. *)
Definition start (s : shared) (keys : list string) : config :=
  mkConfig s (spawn <$> keys) false.

(** A fresh process around memo [m]: nothing logged yet. *)
Definition fresh (m : Memo) (w : W) : shared := mkShared m w [] [].

(** ** Observations on a run *)

(** How often [f] has been invoked on key [k]. *)
Definition invoked (k : string) (s : shared) : nat :=
  length (filter (λ k', k' = k) (calls s)).

(** How often a goroutine has invoked [f]. *)
Definition ncall (th : thread) : nat :=
  length (filter (λ e, e = EvCall) (trace th)).

(** The invocations of [f] by a goroutine that count for key [k]. *)
Definition weight (k : string) (th : thread) : nat :=
  if decide (key th = k) then ncall th else 0.

(** How many of the calls [keys] are calls of [Get(k)]. *)
Definition callers (k : string) (keys : list string) : nat :=
  length (filter (λ k', k' = k) keys).

(** The events the body of [Get] has produced when it stands at a program
    point; from line 38 on they depend on which branch was taken. *)
Definition trace_at (l : label) (b : bool) : list event :=
  match l with
  | L29 => []
  | L30 | L31 => [EvLock]
  | L32 | L33 => [EvLock; EvUnlock]
  | L33f => [EvLock; EvUnlock; EvCall]
  | L34 => [EvLock; EvUnlock; EvCall; EvRet]
  | L35 | L36 => [EvLock; EvUnlock; EvCall; EvRet; EvLock]
  | L38 =>
      if b then [EvLock; EvUnlock]
      else [EvLock; EvUnlock; EvCall; EvRet; EvLock; EvUnlock]
  | L39 | Halt =>
      if b then [EvLock; EvUnlock; EvUnlock]
      else [EvLock; EvUnlock; EvCall; EvRet; EvLock; EvUnlock; EvUnlock]
  end.

(** The program points inside the [if !ok] block, lines 33 to 36. *)
Definition inside_if (l : label) : bool :=
  match l with L33 | L33f | L34 | L35 | L36 => true | _ => false end.

(** A goroutine as the code can produce it: its events are those of its
    program point, it is inside the [if] only after a miss, and it has a
    return value only after the [return], the pair in [res]. *)
Definition sound (th : thread) : Prop :=
  trace th = trace_at (pc th) (ok th) ∧
  (inside_if (pc th) = true → ok th = false) ∧
  (∀ v, out th = Some v → pc th = Halt ∧ v = (value (res th), err (res th))).

(** A monitor over the events of one goroutine: [held] is whether its
    last operation on the mutex was a [Lock], [inside] whether it is
    inside [f].  It accepts when [f] is entered only with the mutex
    released and the mutex is not touched before [f] has handed back. *)
Fixpoint unlocked_calls (held inside : bool) (tr : list event) : bool :=
  match tr with
  | [] => true
  | EvLock :: tr' => negb inside && unlocked_calls true inside tr'
  | EvUnlock :: tr' => negb inside && unlocked_calls false inside tr'
  | EvCall :: tr' => negb held && unlocked_calls held true tr'
  | EvRet :: tr' => unlocked_calls held false tr'
  end.

(** Locks taken and releases done by one goroutine. *)
Definition nlock (tr : list event) : nat := length (filter (λ e, e = EvLock) tr).
Definition nunlock (tr : list event) : nat := length (filter (λ e, e = EvUnlock) tr).

(** The goroutine holds a pair obtained from the cache or from [f]. *)
Definition carries (th : thread) : bool :=
  match pc th with
  | L31 | L32 => ok th
  | L34 | L35 | L36 | L38 | L39 | Halt => true
  | _ => false
  end.

(** Every pair in the map and every pair a goroutine carries was handed
    back by an invocation of [f] on that key. *)
Definition from_f (c : config) : Prop :=
  (∀ k r, cache (memo (sh c)) !! k = Some r → (k, r) ∈ rets (sh c)) ∧
  Forall (λ th, carries th = true → (key th, res th) ∈ rets (sh c))
    (threads c).

(** The goroutine is between a lookup that missed and its store. *)
Definition pending (th : thread) : bool :=
  match pc th with
  | L31 | L32 => negb (ok th)
  | L33 | L33f | L34 | L35 => true
  | _ => false
  end.

(** No call of [Get(k)] is between a lookup that missed and its store. *)
Definition settled (k : string) (c : config) : Prop :=
  Forall (λ th, key th = k → pending th = false) (threads c).

(** The shared state an action ends in. *)
Definition final {A : Type} (o : outcome A) : shared :=
  match o with Done _ s | Fatal s | Blocked s => s end.

Definition is_fatal {A : Type} (o : outcome A) : bool :=
  match o with Fatal _ => true | _ => false end.

(** ** Observations on the mutex and on progress *)

(** The goroutine is in one of the two critical sections of [Get]: after
    a [Lock] (lines 29, 34) and before the [Unlock] that follows it
    (lines 31, 36). *)
Definition critical (th : thread) : bool :=
  match pc th with L30 | L31 | L35 | L36 => true | _ => false end.

(** The goroutine has got past the [Unlock] of line 38. *)
Definition past38 (th : thread) : bool :=
  match pc th with L39 | Halt => true | _ => false end.

(** The goroutine has not read the map yet. *)
Definition before_lookup (th : thread) : bool :=
  match pc th with L29 | L30 => true | _ => false end.

(** How many goroutines are in a critical section. *)
Definition in_critical (c : config) : nat :=
  sum_list_with (λ th, if critical th then 1 else 0) (threads c).

(** The statements a call still has before it, at most, counted along
    the longer branch. *)
Definition remaining (l : label) : nat :=
  match l with
  | L29 => 11 | L30 => 10 | L31 => 9 | L32 => 8 | L33 => 7 | L33f => 6
  | L34 => 5 | L35 => 4 | L36 => 3 | L38 => 2 | L39 => 1 | Halt => 0
  end.

(** The statements the process still has before it, at most. *)
Definition budget (c : config) : nat :=
  if fatal c then 0
  else sum_list_with (λ th, remaining (pc th)) (threads c).

(** How many entries of a schedule did move a goroutine. *)
Fixpoint moved (sched : list nat) (c : config) : nat :=
  match sched with
  | [] => 0
  | t :: sched' =>
      match step t c with
      | Some c' => S (moved sched' c')
      | None => moved sched' c
      end
  end.

(** The goroutine cannot run its statement in shared state [s]. *)
Definition waits (s : shared) (th : thread) : bool :=
  match instr th s with Blocked _ => true | _ => false end.

(** ** The story of one call *)

(** The goroutine has looked its key up, found nothing, and has not yet
    been handed a pair by [f]: lines 31 and 32 after a miss, and line 33
    up to the moment [f] hands back. *)
Definition awaits_f (th : thread) : bool :=
  match pc th with
  | L31 | L32 => negb (ok th)
  | L33 | L33f => true
  | _ => false
  end.

(** Goroutine [t] carries the pair [r] in its [res]. *)
Definition holds (t : nat) (r : result) (c : config) : Prop :=
  ∃ th, threads c !! t = Some th ∧ carries th = true ∧ res th = r.

(** Goroutine [t] has done its lookup, and its [ok] is [b]. *)
Definition decided (t : nat) (b : bool) (c : config) : Prop :=
  ∃ th, threads c !! t = Some th ∧ before_lookup th = false ∧ ok th = b.

(** Somewhere along [sched], run from [c], goroutine [t] is inside [f]
    and is the next to move (its invocation of [f] hands back then), and
    [v] is the pair that [f] hands back for its key in the world of that
    moment. *)
Definition own_invocation (t : nat) (v : iface * error)
    (sched : list nat) (c : config) : Prop :=
  ∃ s1 s2 th1,
    sched = s1 ++ t :: s2 ∧
    threads (run s1 c) !! t = Some th1 ∧ pc th1 = L33f ∧
    fatal (run s1 c) = false ∧
    v = (value (f (memo (sh (run s1 c))) (key th1) (world (sh (run s1 c)))).1,
         err (f (memo (sh (run s1 c))) (key th1) (world (sh (run s1 c)))).1).

(** Somewhere along [sched], run from [c], goroutine [t] is at its map
    read of line 30 and is the next to move.  Either the map holds a
    pair [r] under its key at that moment: then [b] is [true] and [v] is
    that pair.  Or the map holds nothing under its key: then [b] is
    [false], and in the rest of the schedule the goroutine invokes [f]
    itself and [v] is the pair that invocation hands back. *)
Definition lookup_decides (t : nat) (b : bool) (v : iface * error)
    (sched : list nat) (c : config) : Prop :=
  ∃ s1 s2 th1,
    sched = s1 ++ t :: s2 ∧
    threads (run s1 c) !! t = Some th1 ∧ pc th1 = L30 ∧
    fatal (run s1 c) = false ∧
    match cache (memo (sh (run s1 c))) !! key th1 with
    | Some r => b = true ∧ v = (value r, err r)
    | None => b = false ∧ own_invocation t v s2 (run (s1 ++ [t]) c)
    end.

End World.

Arguments Done {W A} a s.
Arguments Fatal {W A} s.
Arguments Blocked {W A} s.

(** ** A callback that tells its invocations apart

    The world is the number of invocations so far, and the value handed
    back is that number: no two invocations hand back the same pair. *)
Definition counter : Func (W := nat) :=
  λ _ n, (Result (IInt (Z.of_nat n)) None, S n).

(** Both goroutines look [k] up before either has stored it, then both
    invoke [f]. *)
Definition two_callers : config :=
  run [0; 0; 0; 0; 1; 1; 1; 1; 0; 0; 1; 1]
    (start (fresh (New counter) 0) ["k"; "k"]).

(** Goroutine 0 goes on to lock and store ... *)
Definition first_stored : config := run [0; 0] two_callers.

(** ... then unlocks, and goroutine 1 locks and stores in its turn. *)
Definition second_stored : config := run [0; 1; 1] first_stored.

(** Four calls of [Get("k")]: goroutines 0 and 1 both miss and both invoke
    [f]; each of their surplus [Unlock]s releases a lock taken by another
    goroutine, so both of them return. *)
Definition four_callers : config :=
  run [0; 0; 0; 0; 1; 1; 1; 1; 0; 0; 1; 1;
       0; 0; 0; 1; 0; 0; 1; 2; 1; 3; 1; 1]
    (start (fresh (New counter) 0) ["k"; "k"; "k"; "k"]).

(** A callback whose result for every key is the pair [(nil, nil)]. *)
Definition nil_nil : Func (W := unit) := λ _ w, (Result INil None, w).

Section Proofs.

Context {W : Type}.
Implicit Types (c : config (W := W)) (s : shared (W := W)) (th : thread).

(** ** Reasoning about schedules *)

(** Every schedule stays within what finitely many moves reach, and every
    reachable configuration is the result of a schedule: quantifying over
    schedules is quantifying over all interleavings. *)
Lemma run_reaches (sched : list nat) c : reaches c (run sched c).
Proof.
  revert c. induction sched as [|t sched IH]; intros c; simpl.
  - apply rtc_refl.
  - destruct (step t c) as [c'|] eqn:E; [|apply IH].
    eapply rtc_l; [exists t; exact E | apply IH].
Qed.

Lemma reaches_run c c' :
  reaches c c' → ∃ sched, c' = run sched c.
Proof.
  induction 1 as [c|c c1 c2 [t Ht] _ [sched ->]].
  - by exists [].
  - exists (t :: sched). simpl. by rewrite Ht.
Qed.

Lemma run_app (s1 s2 : list nat) c :
  run (s1 ++ s2) c = run s2 (run s1 c).
Proof.
  revert c. induction s1 as [|t s1 IH]; intros c; simpl; [done|].
  destruct (step t c); apply IH.
Qed.

(** A property kept by every move holds along every schedule. *)
Lemma run_inv (P : config → Prop) :
  (∀ t c c', P c → step t c = Some c' → P c') →
  ∀ sched c, P c → P (run sched c).
Proof.
  intros Hstep sched. induction sched as [|t sched IH]; intros c Hc; simpl.
  - done.
  - destruct (step t c) as [c'|] eqn:E; eauto.
Qed.

(** What a move is made of. *)
Lemma step_Some (t : nat) c c' :
  step t c = Some c' →
  fatal c = false ∧ ∃ th, threads c !! t = Some th ∧
    match instr th (sh c) with
    | Done th' s' => c' = mkConfig s' (<[t := th']> (threads c)) false
    | Fatal s' => c' = mkConfig s' (threads c) true
    | Blocked _ => False
    end.
Proof.
  unfold step. destruct (fatal c); [done|].
  destruct (threads c !! t) as [th|]; [|done].
  intros H. split; [done|]. exists th. split; [done|].
  destruct (instr th (sh c)); by simplify_eq.
Qed.

(** Case analysis on the statement a goroutine runs: on its program
    point, on the mutex, on the map read and on what the callback hands
    back. *)
Ltac instr_cases H :=
  match type of H with
  | context [instr ?th (sh ?c)] =>
      let k := fresh "k" in let l := fresh "l" in let r := fresh "r" in
      let b := fresh "b" in let o := fresh "o" in let tr := fresh "tr" in
      let g := fresh "g" in let m := fresh "m" in let ch := fresh "ch" in
      let w := fresh "w" in let cl := fresh "cl" in let rl := fresh "rl" in
      let fa := fresh "fa" in let ths := fresh "ths" in
      destruct th as [k l r b o tr];
      destruct c as [[[g m ch] w cl rl] ths fa];
      destruct l; simpl in H;
      unfold instr, mbind, M_bind, mret, M_ret, Lock, Unlock, load, store,
        enter, leave in H; simpl in H;
      repeat match type of H with
        | context [if ?x then _ else _] => destruct x eqn:?; simpl in H
        | context [match ?m !! ?i with _ => _ end] =>
            destruct (m !! i) eqn:?; simpl in H
        | context [let '(_, _) := ?x in _] => destruct x eqn:?; simpl in H
        end;
      try done; subst; simpl in *
  end.

(** The callback, and the key of every goroutine, never change. *)
Lemma step_f (t : nat) c c' :
  step t c = Some c' → f (memo (sh c')) = f (memo (sh c)).
Proof.
  intros (_ & th & _ & H)%step_Some. instr_cases H; done.
Qed.

Lemma step_keys (t : nat) c c' :
  step t c = Some c' → key <$> threads c' = key <$> threads c.
Proof.
  intros (_ & th & Hth & H)%step_Some.
  instr_cases H; try done;
    (rewrite list_fmap_insert; apply list_insert_id;
     by rewrite list_lookup_fmap, Hth).
Qed.

Lemma run_keys (sched : list nat) s (keys : list string) :
  key <$> threads (run sched (start s keys)) = keys.
Proof.
  apply (run_inv (λ c, key <$> threads c = keys)).
  - intros t c c' Hc Hs. by rewrite (step_keys _ _ _ Hs).
  - unfold start; simpl. rewrite <- list_fmap_compose.
    induction keys; simpl; by f_equal.
Qed.

Lemma spawn_sound (keys : list string) : Forall sound (spawn <$> keys).
Proof.
  apply Forall_fmap, Forall_forall. intros k _. by split; [|split].
Qed.

Lemma step_sound (t : nat) c c' :
  Forall sound (threads c) → step t c = Some c' → Forall sound (threads c').
Proof.
  intros Hall (_ & th & Hth & H)%step_Some.
  pose proof (Forall_lookup_1 _ _ _ _ Hall Hth) as (Htr & Hif & Hout).
  instr_cases H; try done;
    (apply Forall_insert; [done|]);
    (split; [|split]; simpl;
     [ try rewrite Htr; try rewrite (Hif eq_refl);
       repeat match goal with
         | |- context [if ?x then _ else _] => destruct x
         end; done
     | try done; intros;
       first [ by apply Hif
             | match goal with E : negb ?x = true |- ?x = false =>
                 by destruct x
               end ]
     | try (intros v Hv; by destruct (Hout v Hv)) ]).
  by intros v [= <-].
Qed.

Lemma run_sound (sched : list nat) s (keys : list string) :
  Forall sound (threads (run sched (start s keys))).
Proof.
  apply (run_inv (λ c, Forall sound (threads c))).
  - intros t c c' Hc Hs. by eapply step_sound.
  - apply spawn_sound.
Qed.

(** ** The callback is fixed, the frame is kept *)

Lemma run_f (sched : list nat) c :
  f (memo (sh (run sched c))) = f (memo (sh c)).
Proof.
  apply (run_inv (λ c', f (memo (sh c')) = f (memo (sh c)))); [|done].
  intros t c1 c2 Hc Hs. by rewrite (step_f _ _ _ Hs).
Qed.

Lemma Get_f (k : string) s : f (memo (final (Get k s))) = f (memo s).
Proof.
  destruct s as [[g m ch] w cl rl].
  unfold Get, mbind, M_bind, mret, M_ret, Lock, Unlock, load, store,
    enter, leave; simpl.
  destruct m; simpl; [done|].
  destruct (ch !! k); simpl; [done|].
  by destruct (g k w).
Qed.

(** C8: [New(f)] is a cache with an empty mapping, an unlocked mutex and
    [f] as its callback; the callback is still [f] after a call of [Get]
    that runs alone, and after any number of statements of any number of
    concurrent calls of [Get], whatever their keys and their order. *)
Theorem New_empty_callback_fixed
    (g : Func) (w : W) (k : string) (keys : list string) (sched : list nat) :
  cache (New g) = ∅ ∧ f (New g) = g ∧ mu (New g) = false ∧
  f (memo (final (Get k (fresh (New g) w)))) = g ∧
  f (memo (sh (run sched (start (fresh (New g) w) keys)))) = g.
Proof.
  repeat split.
  - by rewrite Get_f.
  - by rewrite run_f.
Qed.

(** A statement of [Get(k)] leaves every other key of the map alone. *)
Lemma step_frame (t : nat) c c' th (k' : string) :
  threads c !! t = Some th → step t c = Some c' → key th ≠ k' →
  cache (memo (sh c')) !! k' = cache (memo (sh c)) !! k'.
Proof.
  intros Hth (_ & th' & Hth' & H)%step_Some Hne.
  rewrite Hth in Hth'. injection Hth' as <-.
  instr_cases H; try done.
  by apply lookup_insert_ne.
Qed.

Lemma Get_frame_alone (k k' : string) s :
  k ≠ k' → cache (memo (final (Get k s))) !! k' = cache (memo s) !! k'.
Proof.
  intros Hne. destruct s as [[g m ch] w cl rl].
  unfold Get, mbind, M_bind, mret, M_ret, Lock, Unlock, load, store,
    enter, leave; simpl.
  destruct m; simpl; [done|].
  destruct (ch !! k); simpl; [done|].
  destruct (g k w); simpl. by apply lookup_insert_ne.
Qed.

(** C9: a call of [Get(k)] writes the map at key [k] only.  Whatever the
    calls in flight and however far they have run, the next statement of
    a call of [Get(k)] leaves the entry of every key [k'] other than [k]
    as it was, absent or present with the same pair; so while no call has
    [k'] as its key, the entry of [k'] is the one the calls started
    with. *)
Theorem Get_writes_own_key_only
    s (keys : list string) (sched : list nat) (k' : string) :
  (∀ t th c', threads (run sched (start s keys)) !! t = Some th →
     key th ≠ k' → step t (run sched (start s keys)) = Some c' →
     cache (memo (sh c')) !! k' =
       cache (memo (sh (run sched (start s keys)))) !! k') ∧
  (k' ∉ keys →
     cache (memo (sh (run sched (start s keys)))) !! k' =
       cache (memo s) !! k').
Proof.
  split.
  - intros t th c' Hth Hne Hs. by eapply step_frame.
  - intros Hnot.
    apply (run_inv (λ c, key <$> threads c = keys ∧
             cache (memo (sh c)) !! k' = cache (memo s) !! k')).
    + intros t c c' [Hk Hc] Hs. split.
      * by rewrite (step_keys _ _ _ Hs).
      * destruct (step_Some _ _ _ Hs) as (_ & th & Hth & _).
        rewrite <- Hc. eapply step_frame; [done..|].
        intros <-. apply Hnot. rewrite <- Hk.
        apply list_elem_of_fmap. exists th. split; [done|].
        by eapply list_elem_of_lookup_2.
    + split; [|done]. apply (run_keys [] s keys).
Qed.

(** ** The mutex and the callback *)

(** C6: in every interleaving of any number of calls of [Get], each
    goroutine enters [f] only after it has released the mutex it locked
    for the lookup, and touches the mutex again only after [f] has handed
    back; a goroutine that is inside [f] has released the mutex as often
    as it has locked it. *)
Theorem f_runs_without_the_mutex
    s (keys : list string) (sched : list nat) (t : nat) th :
  threads (run sched (start s keys)) !! t = Some th →
  unlocked_calls false false (trace th) = true ∧
  (pc th = L33f → nlock (trace th) = nunlock (trace th)).
Proof.
  intros Hth.
  pose proof (Forall_lookup_1 _ _ _ _ (run_sound sched s keys) Hth)
    as (Htr & _ & _).
  rewrite Htr. split.
  - by destruct (pc th), (ok th).
  - by intros ->.
Qed.

(** ** Counting the invocations of the callback *)

Lemma sum_list_with_insert {A : Type} (g : A → nat) (l : list A)
    (i : nat) (x y : A) :
  l !! i = Some x →
  sum_list_with g (<[i := y]> l) + g x = sum_list_with g l + g y.
Proof.
  revert i. induction l as [|a l IH]; intros [|i] Hi; simplify_eq/=.
  - lia.
  - specialize (IH i Hi). lia.
Qed.

Lemma events_snoc (e0 : event) (tr : list event) (e : event) :
  length (filter (λ e', e' = e0) (tr ++ [e])) =
  length (filter (λ e', e' = e0) tr) + (if decide (e = e0) then 1 else 0).
Proof.
  rewrite filter_app, length_app. f_equal.
  rewrite filter_cons, filter_nil. by destruct (decide (e = e0)).
Qed.

Lemma invoked_snoc (k k0 : string) (cl : list string) :
  length (filter (λ k', k' = k) (cl ++ [k0])) =
  length (filter (λ k', k' = k) cl) + (if decide (k0 = k) then 1 else 0).
Proof.
  rewrite filter_app, length_app. f_equal.
  rewrite filter_cons, filter_nil. by destruct (decide (k0 = k)).
Qed.

(** The invocations of [f] on [k] are those of the goroutines. *)
Lemma step_invoked (t : nat) c c' (k : string) :
  invoked k (sh c) = sum_list_with (weight k) (threads c) →
  step t c = Some c' →
  invoked k (sh c') = sum_list_with (weight k) (threads c').
Proof.
  intros Hinv (_ & th & Hth & H)%step_Some.
  instr_cases H; try done;
    match goal with
    | |- context [<[t := ?th']> ?l] =>
        pose proof (sum_list_with_insert (weight k) l t _ th' Hth) as Hsum
    end;
    unfold invoked, weight, ncall in *; simpl in *;
    rewrite ?events_snoc, ?invoked_snoc in *; simpl in *;
    repeat case_decide; try done; lia.
Qed.

Lemma sound_ncall th : sound th → ncall th ≤ 1 ∧ (ncall th = 1 → ok th = false).
Proof.
  intros (Htr & Hif & _). unfold ncall. rewrite Htr.
  destruct (pc th) eqn:Hpc, (ok th) eqn:Hok; simpl in *;
    split; try done; try lia; intros _; by apply Hif.
Qed.

Lemma weight_bound (k : string) (ths : list thread) :
  Forall sound ths →
  sum_list_with (weight k) ths ≤ callers k (key <$> ths).
Proof.
  unfold callers. induction 1 as [|th ths Hth _ IH]; [done|].
  rewrite fmap_cons, filter_cons. cbn [sum_list_with]. unfold weight at 1.
  destruct (decide (key th = k)); cbn [length]; [|lia].
  destruct (sound_ncall th Hth). lia.
Qed.

Lemma run_invoked (sched : list nat) (m : Memo) (w : W)
    (keys : list string) (k : string) :
  invoked k (sh (run sched (start (fresh m w) keys))) =
  sum_list_with (weight k) (threads (run sched (start (fresh m w) keys))).
Proof.
  apply (run_inv (λ c, invoked k (sh c) = sum_list_with (weight k) (threads c))).
  - intros t c c' Hc Hs. by eapply step_invoked.
  - unfold start, fresh, invoked. cbn [sh threads calls filter length].
    rewrite filter_nil. cbn [length].
    induction keys as [|k0 keys IH]; [done|].
    rewrite fmap_cons. cbn [sum_list_with]. rewrite <- IH.
    unfold weight. by case_decide.
Qed.

Lemma callers_replicate (k : string) (n : nat) : callers k (replicate n k) = n.
Proof.
  unfold callers. induction n as [|n IH]; simpl; [done|].
  rewrite filter_cons. destruct (decide (k = k)); [|done]. simpl. by rewrite IH.
Qed.

(** C1, as the code has it: among any calls of [Get] run in any
    interleaving, each call invokes [f] at most once, and only a call
    whose own lookup found its key absent does; the invocations of [f] on
    [k] are exactly those made by the calls of [Get(k)], so [f] is
    invoked on [k] at most as often as [Get(k)] was called. *)
Theorem f_invoked_at_most_once_per_call
    (m : Memo) (w : W) (keys : list string) (sched : list nat) (k : string) :
  invoked k (sh (run sched (start (fresh m w) keys))) =
    sum_list_with (weight k) (threads (run sched (start (fresh m w) keys))) ∧
  invoked k (sh (run sched (start (fresh m w) keys))) ≤ callers k keys ∧
  ∀ t th, threads (run sched (start (fresh m w) keys)) !! t = Some th →
    ncall th ≤ 1 ∧ (ncall th = 1 → ok th = false).
Proof.
  split; [apply run_invoked|]. split.
  - rewrite run_invoked. rewrite <- (run_keys sched (fresh m w) keys) at 2.
    apply weight_bound, run_sound.
  - intros t th Hth. apply sound_ncall.
    exact (Forall_lookup_1 _ _ _ _ (run_sound sched _ keys) Hth).
Qed.

(** ** Where the returned pairs come from *)

Lemma step_from_f (t : nat) c c' :
  from_f c → step t c = Some c' → from_f c'.
Proof.
  intros [Hmap Hall] (_ & th & Hth & H)%step_Some.
  pose proof (Forall_lookup_1 _ _ _ _ Hall Hth) as Hcar.
  instr_cases H; try done; (split; simpl in *;
    [ try done | apply Forall_insert; simpl; try done ]).
  - intros _. by apply Hmap.
  - intros _. apply Hcar. by destruct b.
  - intros k0 r1 Hk. apply elem_of_app. left. by apply Hmap.
  - eapply Forall_impl; [exact Hall|]. simpl. intros th Hin Hc.
    apply elem_of_app. left. by apply Hin.
  - intros _. apply elem_of_app. right. by apply list_elem_of_singleton.
  - intros k0 r0 Hk. destruct (decide (k = k0)) as [<-|Hne].
    + rewrite lookup_insert_eq in Hk. injection Hk as <-. by apply Hcar.
    + rewrite lookup_insert_ne in Hk by done. by apply Hmap.
Qed.

Lemma run_from_f (sched : list nat) (g : Func) (w : W) (keys : list string) :
  from_f (run sched (start (fresh (New g) w) keys)).
Proof.
  apply (run_inv from_f).
  - intros t c c' Hc Hs. by eapply step_from_f.
  - split; simpl.
    + intros k r Hk. by rewrite lookup_empty in Hk.
    + apply Forall_fmap, Forall_forall. by intros k _.
Qed.

(** *** The story of one call, step by step *)

(** Case analysis on one statement that runs to its end. *)
Ltac instr_done H :=
  match type of H with
  | instr ?th ?s = Done _ _ =>
      let k := fresh "k" in let l := fresh "l" in let r := fresh "r" in
      let b := fresh "b" in let o := fresh "o" in let tr := fresh "tr" in
      let g := fresh "g" in let m := fresh "m" in let ch := fresh "ch" in
      let w := fresh "w" in let cl := fresh "cl" in let rl := fresh "rl" in
      destruct th as [k l r b o tr];
      destruct s as [[g m ch] w cl rl];
      destruct l; simpl in *; try done;
      unfold instr, mbind, M_bind, mret, M_ret, Lock, Unlock, load, store,
        enter, leave in H; simpl in H;
      repeat match type of H with
        | context [if ?x then _ else _] => destruct x eqn:?; simpl in H
        | context [match ?m !! ?i with _ => _ end] =>
            destruct (m !! i) eqn:?; simpl in H
        | context [let '(_, _) := ?x in _] => destruct x eqn:?; simpl in H
        end;
      try done; injection H as <- <-; simpl in *;
      repeat match goal with
        | E : negb ?x = _ |- _ => destruct x; simpl in E
        end;
      try done
  end.

Lemma run_fatal (sched : list nat) c : fatal c = true → run sched c = c.
Proof.
  intros Hf. induction sched as [|t sched IH]; simpl; [done|].
  unfold step. by rewrite Hf.
Qed.

Lemma run_sound_from (sched : list nat) c :
  Forall sound (threads c) → Forall sound (threads (run sched c)).
Proof.
  apply (run_inv (λ c', Forall sound (threads c'))).
  intros t c1 c2 Hc Hs. by eapply step_sound.
Qed.

(** What a move of goroutine [t'] does to goroutine [t]: nothing, or [t]
    is the one that moved and has run its statement to the end. *)
Lemma step_at (t t' : nat) c c' th0 :
  step t' c = Some c' → threads c !! t = Some th0 →
  threads c' !! t = Some th0 ∨
  (t' = t ∧ fatal c = false ∧
   ∃ th', instr th0 (sh c) = Done th' (sh c') ∧ threads c' !! t = Some th').
Proof.
  intros (Hf & th & Hth & H)%step_Some Ht.
  destruct (instr th (sh c)) as [th' s'|s'|s'] eqn:E; [|subst; by left|done].
  subst c'. simpl. destruct (decide (t' = t)) as [->|Hne].
  - right. rewrite Ht in Hth. injection Hth as <-.
    split; [done|]. split; [done|]. exists th'. split; [done|].
    apply list_lookup_insert_eq. by eapply lookup_lt_Some.
  - left. by rewrite list_lookup_insert_ne.
Qed.

(** Once a goroutine carries a pair, it keeps it. *)
Lemma instr_carries th s th' s' :
  carries th = true → instr th s = Done th' s' →
  carries th' = true ∧ res th' = res th.
Proof.
  unfold carries. intros Hc H. instr_done H.
Qed.

Lemma step_holds (t t' : nat) (r : result) c c' :
  holds t r c → step t' c = Some c' → holds t r c'.
Proof.
  intros (th & Hth & Hc & Hr) Hs.
  destruct (step_at t t' c c' th Hs Hth) as [Hsame|(_ & _ & th' & Hi & Hth')].
  - by exists th.
  - destruct (instr_carries _ _ _ _ Hc Hi) as [Hc' Hr'].
    exists th'. split; [done|]. split; [done|]. congruence.
Qed.

Lemma run_holds (t : nat) (r : result) (sched : list nat) c :
  holds t r c → holds t r (run sched c).
Proof.
  apply (run_inv (holds t r)). intros t' c1 c2 Hc Hs. by eapply step_holds.
Qed.

(** Once a goroutine has done its lookup, its [ok] stays. *)
Lemma instr_decided th s th' s' :
  before_lookup th = false → instr th s = Done th' s' →
  before_lookup th' = false ∧ ok th' = ok th.
Proof.
  unfold before_lookup. intros Hc H. instr_done H.
Qed.

Lemma step_decided (t t' : nat) (b : bool) c c' :
  decided t b c → step t' c = Some c' → decided t b c'.
Proof.
  intros (th & Hth & Hc & Hr) Hs.
  destruct (step_at t t' c c' th Hs Hth) as [Hsame|(_ & _ & th' & Hi & Hth')].
  - by exists th.
  - destruct (instr_decided _ _ _ _ Hc Hi) as [Hc' Hr'].
    exists th'. split; [done|]. split; [done|]. congruence.
Qed.

Lemma run_decided (t : nat) (b : bool) (sched : list nat) c :
  decided t b c → decided t b (run sched c).
Proof.
  apply (run_inv (decided t b)). intros t' c1 c2 Hc Hs. by eapply step_decided.
Qed.

(** A goroutine that waits for [f] goes on waiting, or it is inside [f]
    and is handed the pair [f] makes of its key and the world. *)
Lemma instr_awaits_f th s th' s' :
  awaits_f th = true → instr th s = Done th' s' →
  awaits_f th' = true ∨
  (pc th = L33f ∧ carries th' = true ∧
   res th' = (f (memo s) (key th) (world s)).1).
Proof.
  unfold awaits_f, carries. intros Ha H. instr_done H; auto.
Qed.

(** A goroutine that has not looked its key up yet goes on to its
    lookup, or it is at its lookup and finds a pair or nothing. *)
Lemma instr_before_lookup th s th' s' :
  before_lookup th = true → instr th s = Done th' s' →
  before_lookup th' = true ∨
  (pc th = L30 ∧ before_lookup th' = false ∧
   match cache (memo s) !! key th with
   | Some r => ok th' = true ∧ carries th' = true ∧ res th' = r
   | None => ok th' = false ∧ awaits_f th' = true
   end).
Proof.
  unfold before_lookup, awaits_f, carries. intros Ha H. instr_done H; auto.
  right. by repeat split.
Qed.

(** A story told of the rest of a schedule is a story of the schedule. *)
Lemma own_invocation_later (t t' : nat) (v : iface * error)
    (sched : list nat) c :
  own_invocation t v sched (run [t'] c) → own_invocation t v (t' :: sched) c.
Proof.
  intros (s1 & s2 & th1 & -> & Hth & Hpc & Hf & Hv).
  exists (t' :: s1), s2, th1. split; [done|].
  change (t' :: s1) with ([t'] ++ s1). rewrite run_app.
  split; [done|]. split; [done|]. split; [done|]. exact Hv.
Qed.

Lemma lookup_decides_later (t t' : nat) (b : bool) (v : iface * error)
    (sched : list nat) c :
  lookup_decides t b v sched (run [t'] c) →
  lookup_decides t b v (t' :: sched) c.
Proof.
  intros (s1 & s2 & th1 & -> & Hth & Hpc & Hf & Hv).
  exists (t' :: s1), s2, th1.
  split; [done|].
  change ((t' :: s1) ++ [t]) with ([t'] ++ (s1 ++ [t])).
  change (t' :: s1) with ([t'] ++ s1). rewrite !run_app.
  split; [done|]. split; [done|]. split; [done|].
  rewrite run_app in Hv. exact Hv.
Qed.

(** A goroutine that waits for [f] and is later found to have returned
    has returned the pair its own invocation handed back. *)
Lemma awaits_f_returns_own (t : nat) (v : iface * error) (sched : list nat) :
  ∀ c th0 th,
    Forall sound (threads c) →
    threads c !! t = Some th0 → awaits_f th0 = true →
    threads (run sched c) !! t = Some th → out th = Some v →
    own_invocation t v sched c.
Proof.
  induction sched as [|t' sched IH]; intros c th0 th Hsound Hth0 Ha Hth Hout.
  - simpl in Hth. rewrite Hth0 in Hth. injection Hth as <-.
    destruct (Forall_lookup_1 _ _ _ _ Hsound Hth0) as (_ & _ & Hret).
    destruct (Hret v Hout) as [Hpc _].
    unfold awaits_f in Ha. by rewrite Hpc in Ha.
  - simpl in Hth. destruct (step t' c) as [c'|] eqn:Hs.
    2:{ apply own_invocation_later. simpl. rewrite Hs. by eapply IH. }
    pose proof (step_sound _ _ _ Hsound Hs) as Hsound'.
    destruct (step_at t t' c c' th0 Hs Hth0)
      as [Hsame|(-> & Hf & th' & Hi & Hth')].
    { apply own_invocation_later. simpl. rewrite Hs. by eapply IH. }
    destruct (instr_awaits_f _ _ _ _ Ha Hi) as [Ha'|(Hpc & Hc' & Hr')].
    { apply own_invocation_later. simpl. rewrite Hs. by eapply IH. }
    clear IH.
    assert (holds t (res th') (run sched c')) as (th2 & Hth2 & _ & Hres).
    { apply run_holds. by exists th'. }
    rewrite Hth in Hth2. injection Hth2 as <-.
    pose proof (run_sound_from sched c' Hsound') as Hsound2.
    destruct (Forall_lookup_1 _ _ _ _ Hsound2 Hth) as (_ & _ & Hret).
    destruct (Hret v Hout) as [_ ->].
    exists [], sched, th0. simpl.
    split; [done|]. split; [done|]. split; [done|]. split; [done|].
    by rewrite Hres, Hr'.
Qed.

(** A goroutine that has not yet looked its key up and is later found to
    have returned: its lookup decided what it returned. *)
Lemma before_lookup_returns (t : nat) (v : iface * error) (sched : list nat) :
  ∀ c th0 th,
    Forall sound (threads c) →
    threads c !! t = Some th0 → before_lookup th0 = true →
    threads (run sched c) !! t = Some th → out th = Some v →
    lookup_decides t (ok th) v sched c.
Proof.
  induction sched as [|t' sched IH]; intros c th0 th Hsound Hth0 Ha Hth Hout.
  - simpl in Hth. rewrite Hth0 in Hth. injection Hth as <-.
    destruct (Forall_lookup_1 _ _ _ _ Hsound Hth0) as (_ & _ & Hret).
    destruct (Hret v Hout) as [Hpc _].
    unfold before_lookup in Ha. by rewrite Hpc in Ha.
  - simpl in Hth. destruct (step t' c) as [c'|] eqn:Hs.
    2:{ apply lookup_decides_later. simpl. rewrite Hs. by eapply IH. }
    pose proof (step_sound _ _ _ Hsound Hs) as Hsound'.
    destruct (step_at t t' c c' th0 Hs Hth0)
      as [Hsame|(-> & Hf & th' & Hi & Hth')].
    { apply lookup_decides_later. simpl. rewrite Hs. by eapply IH. }
    destruct (instr_before_lookup _ _ _ _ Ha Hi) as [Ha'|(Hpc & Hb' & Hfound)].
    { apply lookup_decides_later. simpl. rewrite Hs. by eapply IH. }
    clear IH.
    assert (decided t (ok th') (run sched c')) as (th2 & Hth2 & _ & Hok).
    { apply run_decided. by exists th'. }
    rewrite Hth in Hth2. injection Hth2 as <-.
    exists [], sched, th0. simpl.
    split; [done|]. split; [done|]. split; [done|]. split; [done|].
    rewrite Hs.
    destruct (cache (memo (sh c)) !! key th0) as [r|].
    + destruct Hfound as (Hok' & Hc' & Hr').
      split; [congruence|].
      assert (holds t r (run sched c')) as (th2 & Hth2 & _ & Hres).
      { apply run_holds. by exists th'. }
      rewrite Hth in Hth2. injection Hth2 as <-.
      pose proof (run_sound_from sched c' Hsound') as Hsound2.
      destruct (Forall_lookup_1 _ _ _ _ Hsound2 Hth) as (_ & _ & Hret).
      destruct (Hret v Hout) as [_ ->]. by rewrite Hres.
    + destruct Hfound as (Hok' & Ha').
      split; [congruence|].
      by eapply awaits_f_returns_own.
Qed.

(** C5, as the code has it: among any calls of [Get] on a cache made by
    [New], in any interleaving, a call that has returned has returned a
    pair that some invocation of [f] on its key handed back; which
    invocation is not fixed by the key, but it is by the call's own
    lookup.  There is a moment in the schedule at which the call reads
    the map (line 30).  If the map holds a pair under its key at that
    moment, the call has [ok = true] and has returned that pair.  If the
    map holds nothing under its key, the call has [ok = false], there is
    a later moment at which the call is inside its own invocation of [f]
    (line 33), and it has returned the pair that this invocation handed
    back. *)
Theorem returned_pair_is_from_f
    (g : Func) (w : W) (keys : list string) (sched : list nat)
    (t : nat) th (v : iface * error) :
  threads (run sched (start (fresh (New g) w) keys)) !! t = Some th →
  out th = Some v →
  (∃ r, (key th, r) ∈ rets (sh (run sched (start (fresh (New g) w) keys))) ∧
        v = (value r, err r)) ∧
  lookup_decides t (ok th) v sched (start (fresh (New g) w) keys).
Proof.
  intros Hth Hout. split.
  - destruct (run_from_f sched g w keys) as [_ Hall].
    pose proof (Forall_lookup_1 _ _ _ _ Hall Hth) as Hcar.
    pose proof (Forall_lookup_1 _ _ _ _ (run_sound sched _ keys) Hth)
      as (_ & _ & Hret).
    destruct (Hret v Hout) as [Hpc ->].
    exists (res th). split; [|done].
    apply Hcar. unfold carries. by rewrite Hpc.
  - assert (keys !! t = Some (key th)) as Hkey.
    { rewrite <- (run_keys sched (fresh (New g) w) keys) at 1.
      by rewrite list_lookup_fmap, Hth. }
    eapply (before_lookup_returns t v sched _ (spawn (key th))); try done.
    + apply spawn_sound.
    + unfold start. simpl. by rewrite list_lookup_fmap, Hkey.
Qed.

(** ** What becomes of a stored pair *)

Lemma step_present (t : nat) c c' (k : string) :
  is_Some (cache (memo (sh c)) !! k) → step t c = Some c' →
  is_Some (cache (memo (sh c')) !! k).
Proof.
  intros Hk (_ & th & Hth & H)%step_Some.
  instr_cases H; try done.
  apply lookup_insert_is_Some. destruct (decide (k0 = k)); auto.
Qed.

Lemma step_settled (t : nat) c c' (k : string) (r : result) :
  cache (memo (sh c)) !! k = Some r → settled k c → step t c = Some c' →
  cache (memo (sh c')) !! k = Some r ∧ settled k c'.
Proof.
  unfold settled. intros Hk Hall (_ & th & Hth & H)%step_Some.
  pose proof (Forall_lookup_1 _ _ _ _ Hall Hth) as Hpen.
  instr_cases H; try done; (split; simpl in *;
    [ try done | apply Forall_insert; simpl; try done ]).
  - intros ->. congruence.
  - intros Hk0. specialize (Hpen Hk0). unfold pending in *. simpl in *.
    congruence.
  - rewrite lookup_insert_ne; [done|]. intros Hk0. by specialize (Hpen Hk0).
Qed.

(** C7, as the code has it: a key that the cache maps stays mapped,
    whatever the calls of [Get] in flight do next.  The pair it is mapped
    to stays the same from the moment no call of [Get(k)] is between a
    lookup that found [k] absent and its store: calls that look [k] up
    from then on leave the pair alone. *)
Theorem stored_key_stays c (sched : list nat) (k : string) (r : result) :
  cache (memo (sh c)) !! k = Some r →
  is_Some (cache (memo (sh (run sched c))) !! k) ∧
  (settled k c → cache (memo (sh (run sched c))) !! k = Some r).
Proof.
  intros Hk. split.
  - apply (run_inv (λ c', is_Some (cache (memo (sh c')) !! k))); [|eauto].
    intros t c1 c2 Hc Hs. by eapply step_present.
  - intros Hset.
    apply (run_inv (λ c', cache (memo (sh c')) !! k = Some r ∧ settled k c'));
      [|done].
    intros t c1 c2 [Hc1 Hs1] Hs. by eapply step_settled.
Qed.

(** ** A call that runs alone *)

Ltac run_Get :=
  unfold Get, mbind, M_bind, mret, M_ret, Lock, Unlock, load, store,
    enter, leave; simpl.

(** The two readings of the body agree: one goroutine scheduled until it
    can no longer move ends where [Get] ends. *)
Lemma Get_agrees_with_run (k : string) s :
  sh (run (replicate 11 0) (start s [k])) = final (Get k s) ∧
  fatal (run (replicate 11 0) (start s [k])) = is_fatal (Get k s).
Proof.
  destruct s as [[g m ch] w cl rl]. run_Get.
  unfold step, instr; run_Get.
  destruct m; simpl; [done|].
  destruct (ch !! k) eqn:E; simpl; [done|].
  by destruct (g k w).
Qed.

Lemma Get_on_hit
    (g : Func) (ch : gmap string result) (w : W)
    (cl : list string) (rl : list (string * result))
    (k : string) (r : result) :
  Get k (mkShared (mkMemo g false (<[k := r]> ch)) w cl rl) =
  Fatal (mkShared (mkMemo g false (<[k := r]> ch)) w cl rl).
Proof.
  run_Get. by rewrite lookup_insert_eq.
Qed.

Lemma Get_on_miss
    (g : Func) (ch : gmap string result) (w : W)
    (cl : list string) (rl : list (string * result)) (k : string) :
  Get k (mkShared (mkMemo g false (delete k ch)) w cl rl) =
  Fatal (mkShared (mkMemo g false (<[k := (g k w).1]> (delete k ch)))
           (g k w).2 (cl ++ [k]) (rl ++ [(k, (g k w).1)])).
Proof.
  run_Get. rewrite lookup_delete_eq. simpl. by destruct (g k w).
Qed.

(** ** The mutex is released once too often *)

(** Along every schedule the successful [Unlock]s of all goroutines,
    plus one if the mutex is locked, are the successful [Lock]s. *)
Lemma step_balance (t : nat) c c' :
  sum_list_with (λ th, nunlock (trace th)) (threads c) +
    (if mu (memo (sh c)) then 1 else 0) =
  sum_list_with (λ th, nlock (trace th)) (threads c) →
  step t c = Some c' →
  sum_list_with (λ th, nunlock (trace th)) (threads c') +
    (if mu (memo (sh c')) then 1 else 0) =
  sum_list_with (λ th, nlock (trace th)) (threads c').
Proof.
  intros Hinv (_ & th & Hth & H)%step_Some.
  instr_cases H; try done;
    match goal with
    | |- context [<[t := ?th']> ?l] =>
        pose proof (sum_list_with_insert
                      (λ th, nunlock (trace th)) l t _ th' Hth) as Hu;
        pose proof (sum_list_with_insert
                      (λ th, nlock (trace th)) l t _ th' Hth) as Hl
    end;
    unfold nlock, nunlock in *; simpl in *;
    rewrite ?events_snoc in *; simpl in *; lia.
Qed.

Lemma run_balance (sched : list nat) s (keys : list string) :
  mu (memo s) = false →
  sum_list_with (λ th, nunlock (trace th))
      (threads (run sched (start s keys))) +
    (if mu (memo (sh (run sched (start s keys)))) then 1 else 0) =
  sum_list_with (λ th, nlock (trace th)) (threads (run sched (start s keys))).
Proof.
  intros Hmu.
  apply (run_inv (λ c,
    sum_list_with (λ th, nunlock (trace th)) (threads c) +
      (if mu (memo (sh c)) then 1 else 0) =
    sum_list_with (λ th, nlock (trace th)) (threads c))).
  - intros t c c' Hc Hs. by eapply step_balance.
  - unfold start. cbn [sh threads]. rewrite Hmu.
    induction keys as [|k0 keys IH]; [done|].
    rewrite fmap_cons. cbn [sum_list_with]. unfold nlock, nunlock in *.
    simpl in *. lia.
Qed.

(** A goroutine that has returned has released once more than it locked. *)
Lemma sound_surplus th :
  sound th → pc th = Halt → nunlock (trace th) = nlock (trace th) + 1.
Proof.
  intros (Htr & _ & _) Hpc. rewrite Htr, Hpc. by destruct (ok th).
Qed.

(** X1: the calls cannot all return: in whatever order [N ≥ 1] calls of
    [Get] against an unlocked cache are run, at least one of them has
    not returned. *)
Lemma not_all_return (sched : list nat) s (keys : list string) :
  mu (memo s) = false → keys ≠ [] →
  ¬ Forall (λ th, pc th = Halt) (threads (run sched (start s keys))).
Proof.
  intros Hmu Hne Hall.
  pose proof (run_balance sched s keys Hmu) as Hbal.
  pose proof (run_sound sched s keys) as Hsound.
  pose proof (run_keys sched s keys) as Hkeys.
  assert (∀ ths : list thread, Forall sound ths →
            Forall (λ th, pc th = Halt) ths →
            sum_list_with (λ th, nunlock (trace th)) ths =
            sum_list_with (λ th, nlock (trace th)) ths + length ths) as Hsum.
  { induction 1 as [|th ths Hth _ IH]; [done|].
    intros [Hpc Hrest]%Forall_cons. cbn [sum_list_with length].
    rewrite (sound_surplus th Hth Hpc), (IH Hrest). lia. }
  rewrite (Hsum _ Hsound Hall) in Hbal.
  pose proof (f_equal length Hkeys) as Hlen. rewrite length_fmap in Hlen.
  destruct keys; [done|]. simpl in Hlen.
  destruct (mu _); lia.
Qed.

(** C2, on the code: a call of [Get] that runs alone against an unlocked
    cache, whatever the callback, the map and the key, ends in the
    run-time's fatal error: after the lookup (and, on a miss, after the
    store) every [Lock] has had its [Unlock], and line 38 unlocks once
    more.  And in every interleaving of any number of calls, a call that
    has returned has released the mutex once more than it has locked
    it. *)
Theorem Get_releases_once_too_often
    (g : Func) (ch : gmap string result) (w : W)
    (cl : list string) (rl : list (string * result)) (k : string)
    (keys : list string) (sched : list nat) (t : nat) th :
  is_fatal (Get k (mkShared (mkMemo g false ch) w cl rl)) = true ∧
  (threads (run sched (start (mkShared (mkMemo g false ch) w cl rl) keys))
     !! t = Some th →
   pc th = Halt → nunlock (trace th) = nlock (trace th) + 1).
Proof.
  split.
  - run_Get. destruct (ch !! k); simpl; [done|]. by destruct (g k w).
  - intros Hth. apply sound_surplus.
    exact (Forall_lookup_1 _ _ _ _ (run_sound sched _ keys) Hth).
Qed.

(** C3, on the code: with [k] mapped to [r], a call of [Get(k)] that runs
    alone finds [r], does not invoke [f] and leaves the cache as it was,
    but it does not return [r]: it ends in the fatal error of line 38. *)
Theorem Get_hit_alone
    (g : Func) (ch : gmap string result) (w : W)
    (cl : list string) (rl : list (string * result))
    (k : string) (r : result) :
  Get k (mkShared (mkMemo g false (<[k := r]> ch)) w cl rl) =
  Fatal (mkShared (mkMemo g false (<[k := r]> ch)) w cl rl).
Proof.
  apply Get_on_hit.
Qed.

(** C4, on the code: with [k] absent, a call of [Get(k)] that runs alone
    invokes [f(k)] once and leaves [k] mapped to the pair [f] handed
    back, but it does not return that pair: it ends in the fatal error of
    line 38. *)
Theorem Get_miss_alone
    (g : Func) (ch : gmap string result) (w : W)
    (cl : list string) (rl : list (string * result)) (k : string) :
  Get k (mkShared (mkMemo g false (delete k ch)) w cl rl) =
  Fatal (mkShared (mkMemo g false (<[k := (g k w).1]> (delete k ch)))
           (g k w).2 (cl ++ [k]) (rl ++ [(k, (g k w).1)])).
Proof.
  apply Get_on_miss.
Qed.

(** C10, on the code: when [f(k)] hands back [(nil, nil)], a first call
    of [Get(k)] that runs alone stores that pair (the map then has [k] as
    a member), and a second one finds it and does not invoke [f]; but
    neither returns [(nil, nil)]: both end in the fatal error of line
    38. *)
Theorem Get_nil_nil_alone
    (g : Func) (ch : gmap string result) (w w' : W)
    (cl : list string) (rl : list (string * result)) (k : string) :
  g k w = (Result INil None, w') →
  Get k (mkShared (mkMemo g false (delete k ch)) w cl rl) =
    Fatal (mkShared (mkMemo g false (<[k := Result INil None]> (delete k ch)))
             w' (cl ++ [k]) (rl ++ [(k, Result INil None)])) ∧
  Get k (mkShared (mkMemo g false (<[k := Result INil None]> (delete k ch)))
           w' (cl ++ [k]) (rl ++ [(k, Result INil None)])) =
    Fatal (mkShared (mkMemo g false (<[k := Result INil None]> (delete k ch)))
             w' (cl ++ [k]) (rl ++ [(k, Result INil None)])).
Proof.
  intros Hg. split.
  - rewrite Get_on_miss. by rewrite Hg.
  - apply Get_on_hit.
Qed.

(** ** Mutual exclusion, as far as it goes *)

Lemma sum_list_with_lookup {A : Type} (g : A → nat) (l : list A)
    (i : nat) (x : A) :
  l !! i = Some x → g x ≤ sum_list_with g l.
Proof.
  revert i. induction l as [|a l IH]; intros [|i] Hi; simplify_eq/=.
  - lia.
  - specialize (IH i Hi). lia.
Qed.

Lemma sound_critical th :
  sound th → past38 th = false →
  nlock (trace th) = nunlock (trace th) + (if critical th then 1 else 0).
Proof.
  intros (Htr & _ & _). unfold past38, critical. rewrite Htr.
  by destruct (pc th), (ok th).
Qed.

Lemma critical_sum (ths : list thread) :
  Forall sound ths → Forall (λ th, past38 th = false) ths →
  sum_list_with (λ th, nlock (trace th)) ths =
  sum_list_with (λ th, nunlock (trace th)) ths +
  sum_list_with (λ th, if critical th then 1 else 0) ths.
Proof.
  induction 1 as [|th ths Hth _ IH]; [done|].
  intros [Hp Hrest]%Forall_cons. cbn [sum_list_with].
  rewrite (sound_critical th Hth Hp), (IH Hrest). lia.
Qed.

(** X4: as long as no call has got past line 38, the mutex does its work: in
    every interleaving of calls started against an unlocked cache, the
    mutex is locked exactly when one goroutine is in a critical section,
    and no two goroutines are in a critical section together. *)
Theorem mutual_exclusion_up_to_line_38
    s (keys : list string) (sched : list nat) :
  mu (memo s) = false →
  Forall (λ th, past38 th = false) (threads (run sched (start s keys))) →
  in_critical (run sched (start s keys)) =
    (if mu (memo (sh (run sched (start s keys)))) then 1 else 0) ∧
  in_critical (run sched (start s keys)) ≤ 1.
Proof.
  intros Hmu Hpast.
  pose proof (run_balance sched s keys Hmu) as Hbal.
  pose proof (critical_sum _ (run_sound sched s keys) Hpast) as Hsum.
  unfold in_critical.
  destruct (mu (memo (sh (run sched (start s keys))))); lia.
Qed.

(** X5: as long as no call has got past line 38, the fatal error can only
    come from line 38: the [Unlock]s of lines 31 and 36 find the mutex
    locked. *)
Theorem first_fatal_error_is_at_line_38
    s (keys : list string) (sched : list nat) (t : nat) th c' :
  mu (memo s) = false →
  Forall (λ th, past38 th = false) (threads (run sched (start s keys))) →
  threads (run sched (start s keys)) !! t = Some th →
  step t (run sched (start s keys)) = Some c' →
  fatal c' = true →
  pc th = L38.
Proof.
  intros Hmu Hpast Hth Hstep Hfatal.
  pose proof (run_balance sched s keys Hmu) as Hbal.
  pose proof (critical_sum _ (run_sound sched s keys) Hpast) as Hsum.
  pose proof (sum_list_with_lookup
                (λ th, if critical th then 1 else 0) _ _ _ Hth) as Hone.
  simpl in Hone.
  assert (critical th = true →
          mu (memo (sh (run sched (start s keys)))) = true) as Hlocked.
  { intros Hcr. rewrite Hcr in Hone.
    destruct (mu (memo (sh (run sched (start s keys))))); [done|lia]. }
  destruct (step_Some _ _ _ Hstep) as (_ & th' & Hth' & H).
  rewrite Hth in Hth'. injection Hth' as <-.
  clear Hbal Hsum Hone Hpast Hstep Hth.
  remember (run sched (start s keys)) as c eqn:Hc. clear Hc.
  instr_cases H; try done; by specialize (Hlocked eq_refl).
Qed.

(** ** Progress and termination *)

Lemma sum_list_with_le {A : Type} (g1 g2 : A → nat) (d : nat) (l : list A) :
  Forall (λ x, g1 x + d ≤ g2 x) l →
  sum_list_with g1 l + length l * d ≤ sum_list_with g2 l.
Proof.
  induction 1 as [|x l Hx _ IH]; simpl; lia.
Qed.

(** A goroutine that cannot move has returned, or waits at a [Lock] for
    a locked mutex: either way it has released at least as often as it
    has locked. *)
Lemma waits_surplus c th :
  sound th → waits (sh c) th = true →
  nlock (trace th) + (if mu (memo (sh c)) then 0 else 1) ≤ nunlock (trace th).
Proof.
  intros (Htr & _ & _) Hw. unfold waits in Hw.
  instr_cases Hw; try done; rewrite Htr;
    repeat match goal with
      | |- context [if ?x then _ else _] => destruct x
      end; unfold nlock, nunlock; simpl; lia.
Qed.

(** X2: the process never comes to rest short of the fatal error: in every
    interleaving of [N ≥ 1] calls started against an unlocked cache, as
    long as the fatal error has not struck some goroutine can run its
    next statement.  There is no deadlock, and no state in which all
    calls have returned. *)
Theorem some_call_can_move_until_fatal
    s (keys : list string) (sched : list nat) :
  mu (memo s) = false → keys ≠ [] →
  fatal (run sched (start s keys)) = false →
  ∃ t c', step t (run sched (start s keys)) = Some c'.
Proof.
  intros Hmu Hne Hfatal.
  pose proof (run_balance sched s keys Hmu) as Hbal.
  pose proof (run_sound sched s keys) as Hsound.
  pose proof (f_equal length (run_keys sched s keys)) as Hlen.
  rewrite length_fmap in Hlen.
  remember (run sched (start s keys)) as c eqn:Hc. clear Hc.
  destruct (Forall_Exists_dec
              (λ th, waits (sh c) th = true) (λ th, waits (sh c) th = false)
              (λ th, match waits (sh c) th as b
                     return {b = true} + {b = false}
                     with true => left eq_refl | false => right eq_refl end)
              (threads c)) as [Hall|Hex].
  - exfalso.
    assert (Forall (λ th, nlock (trace th) +
                            (if mu (memo (sh c)) then 0 else 1)
                          ≤ nunlock (trace th)) (threads c)) as Hle.
    { apply Forall_forall. intros th Hin.
      apply waits_surplus.
      - by eapply Forall_forall in Hsound.
      - by eapply Forall_forall in Hall. }
    apply sum_list_with_le in Hle.
    destruct keys; [done|]. simpl in Hlen.
    destruct (mu (memo (sh c))); lia.
  - apply Exists_exists in Hex as (th & Hin & Hw).
    apply list_elem_of_lookup_1 in Hin as [t Ht].
    exists t. unfold step. rewrite Hfatal, Ht.
    unfold waits in Hw. destruct (instr th (sh c)); [eauto..|done].
Qed.

Lemma step_budget (t : nat) c c' :
  step t c = Some c' → budget c' < budget c.
Proof.
  intros (Hf & th & Hth & H)%step_Some.
  pose proof (sum_list_with_lookup (λ th, remaining (pc th)) _ _ _ Hth)
    as Hone.
  unfold budget. rewrite Hf.
  instr_cases H; try done;
    try match goal with
    | |- context [<[t := ?th']> ?l] =>
        pose proof (sum_list_with_insert
                      (λ th, remaining (pc th)) l t _ th' Hth)
    end;
    simpl in *; lia.
Qed.

Lemma budget_start s (keys : list string) :
  budget (start s keys) = 11 * length keys.
Proof.
  unfold budget, start. cbn [fatal threads].
  induction keys as [|k keys IH]; [done|].
  rewrite fmap_cons. cbn [sum_list_with length]. rewrite IH. simpl. lia.
Qed.

Lemma moved_budget (sched : list nat) c :
  moved sched c + budget (run sched c) ≤ budget c.
Proof.
  revert c. induction sched as [|t sched IH]; intros c; simpl; [lia|].
  destruct (step t c) as [c'|] eqn:E; [|apply IH].
  pose proof (step_budget _ _ _ E). specialize (IH c'). lia.
Qed.

(** X3: [Get] has no loop: however [N] calls are scheduled and however long
    the schedule, they run at most [11 N] statements between them, the
    eleven statements of the longer branch for each call. *)
Theorem calls_run_at_most_11_statements_each
    s (keys : list string) (sched : list nat) :
  moved sched (start s keys) ≤ 11 * length keys.
Proof.
  pose proof (moved_budget sched (start s keys)) as H.
  rewrite budget_start in H. lia.
Qed.

(** ** What the cache holds, what a hit does *)

(** X6: in a cache made by [New], every pair found in the map under a key
    was handed back by an invocation of [f] on that key: [Get] stores
    nothing of its own making, not even the zero value it reads on a
    miss. *)
Theorem stored_pair_is_from_f
    (g : Func) (w : W) (keys : list string) (sched : list nat)
    (k : string) (r : result) :
  cache (memo (sh (run sched (start (fresh (New g) w) keys)))) !! k = Some r →
  (k, r) ∈ rets (sh (run sched (start (fresh (New g) w) keys))).
Proof.
  intros Hk. destruct (run_from_f sched g w keys) as [Hmap _]. by apply Hmap.
Qed.

(** When the callback's result depends on the key alone, the log of its
    results holds nothing else. *)
Lemma step_rets_of_key (h : string → result) (t : nat) c c' :
  (∀ k w, (f (memo (sh c)) k w).1 = h k) →
  Forall (λ kr, kr.2 = h kr.1) (rets (sh c)) →
  step t c = Some c' →
  Forall (λ kr, kr.2 = h kr.1) (rets (sh c')).
Proof.
  intros Hh Hall (_ & th & Hth & H)%step_Some.
  instr_cases H; try done.
  apply Forall_app. split; [done|]. apply Forall_singleton. simpl.
  specialize (Hh k w). simpl in Hh.
  match goal with E : g k w = _ |- _ => by rewrite E in Hh end.
Qed.

Lemma run_rets_of_key (h : string → result) (sched : list nat)
    (g : Func) (w : W) (keys : list string) :
  (∀ k w, (g k w).1 = h k) →
  Forall (λ kr, kr.2 = h kr.1)
    (rets (sh (run sched (start (fresh (New g) w) keys)))).
Proof.
  intros Hh.
  apply (run_inv (λ c, f (memo (sh c)) = g ∧
                       Forall (λ kr, kr.2 = h kr.1) (rets (sh c)))).
  - intros t c c' [Hf Hall] Hs. split.
    + by rewrite (step_f _ _ _ Hs).
    + eapply step_rets_of_key; [|done..]. by rewrite Hf.
  - split; [done|]. apply Forall_nil_2.
Qed.

(** X7: memoizing a function of the key: when what [f] hands back depends on
    the key alone, say it is [h key], then in every interleaving of calls
    on a cache made by [New] the map holds [h k] under every key [k] it
    holds, and every call that returns, returns [h] of its key. *)
Theorem function_of_the_key_is_memoized
    (g : Func) (h : string → result) (w : W)
    (keys : list string) (sched : list nat) :
  (∀ k w, (g k w).1 = h k) →
  (∀ k r, cache (memo (sh (run sched (start (fresh (New g) w) keys)))) !! k
            = Some r → r = h k) ∧
  (∀ t th v, threads (run sched (start (fresh (New g) w) keys)) !! t = Some th →
     out th = Some v → v = (value (h (key th)), err (h (key th)))).
Proof.
  intros Hh.
  pose proof (run_rets_of_key h sched g w keys Hh) as Hrets.
  destruct (run_from_f sched g w keys) as [Hmap Hall].
  rewrite Forall_forall in Hrets. split.
  - intros k r Hk. exact (Hrets _ (Hmap k r Hk)).
  - intros t th v Hth Hout.
    pose proof (Forall_lookup_1 _ _ _ _ Hall Hth) as Hcar.
    pose proof (Forall_lookup_1 _ _ _ _ (run_sound sched _ keys) Hth)
      as (_ & _ & Hret).
    destruct (Hret v Hout) as [Hpc ->].
    assert ((key th, res th) ∈
              rets (sh (run sched (start (fresh (New g) w) keys)))) as Hin.
    { apply Hcar. unfold carries. by rewrite Hpc. }
    pose proof (Hrets _ Hin) as Heq. simpl in Heq. by rewrite Heq.
Qed.

(** A goroutine's [ok] is set by the lookup only. *)
Lemma step_ok_after_lookup (t : nat) c c' :
  Forall (λ th, before_lookup th = true → ok th = false) (threads c) →
  step t c = Some c' →
  Forall (λ th, before_lookup th = true → ok th = false) (threads c').
Proof.
  intros Hall (_ & th & Hth & H)%step_Some.
  pose proof (Forall_lookup_1 _ _ _ _ Hall Hth) as Hb.
  instr_cases H; try done; (apply Forall_insert; [done|]); done.
Qed.

Lemma run_ok_after_lookup (sched : list nat) s (keys : list string) :
  Forall (λ th, before_lookup th = true → ok th = false)
    (threads (run sched (start s keys))).
Proof.
  apply (run_inv (λ c,
    Forall (λ th, before_lookup th = true → ok th = false) (threads c))).
  - intros t c c' Hc Hs. by eapply step_ok_after_lookup.
  - apply Forall_fmap, Forall_forall. by intros k _.
Qed.

(** X8: a call whose lookup found its key is a reader from then on: in every
    interleaving, none of its remaining statements invokes [f] or writes
    the map; all they touch is the mutex. *)
Theorem call_that_hit_only_reads
    s (keys : list string) (sched : list nat) (t : nat) th c' :
  threads (run sched (start s keys)) !! t = Some th →
  ok th = true →
  step t (run sched (start s keys)) = Some c' →
  cache (memo (sh c')) = cache (memo (sh (run sched (start s keys)))) ∧
  calls (sh c') = calls (sh (run sched (start s keys))) ∧
  rets (sh c') = rets (sh (run sched (start s keys))) ∧
  world (sh c') = world (sh (run sched (start s keys))).
Proof.
  intros Hth Hok Hstep.
  pose proof (Forall_lookup_1 _ _ _ _ (run_sound sched s keys) Hth)
    as (_ & Hif & _).
  pose proof (Forall_lookup_1 _ _ _ _ (run_ok_after_lookup sched s keys) Hth)
    as Hb.
  destruct (step_Some _ _ _ Hstep) as (_ & th' & Hth' & H).
  rewrite Hth in Hth'. injection Hth' as <-.
  clear Hth Hstep.
  remember (run sched (start s keys)) as c eqn:Hc. clear Hc.
  instr_cases H; try done;
    first [ specialize (Hb eq_refl) | specialize (Hif eq_refl) ];
    simpl in *; congruence.
Qed.

End Proofs.

(** ** Runs of the code on concrete input *)

(** C1 fails on the code: two calls of [Get("k")] that both look the key
    up before either stores it invoke [f] twice. *)
Lemma two_callers_invoke_twice :
  fatal two_callers = false ∧ invoked "k" (sh two_callers) = 2.
Proof. split; vm_compute; reflexivity. Qed.

(** C5 fails on the code: of four concurrent calls of [Get("k")], two
    return, one the pair of the first invocation of [f] and the other
    the pair of the second. *)
Lemma callers_disagree :
  fatal four_callers = false ∧
  out <$> threads four_callers !! 0 = Some (Some (IInt 0, None)) ∧
  out <$> threads four_callers !! 1 = Some (Some (IInt 1, None)).
Proof. repeat split; vm_compute; reflexivity. Qed.

(** C7 fails on the code: the cache maps ["k"] to the pair of the first
    invocation, and three statements later to that of the second. *)
Lemma stored_pair_overwritten :
  cache (memo (sh first_stored)) !! "k" = Some (Result (IInt 0) None) ∧
  cache (memo (sh second_stored)) !! "k" = Some (Result (IInt 1) None).
Proof. split; vm_compute; reflexivity. Qed.

Lemma f_invoked_at_most_once_per_call_witness :
  invoked "k" (sh two_callers) ≤ 2 ∧
  ∃ th, threads two_callers !! 0 = Some th ∧
        ncall th ≤ 1 ∧ (ncall th = 1 → ok th = false).
Proof.
  destruct (f_invoked_at_most_once_per_call
              (New counter) 0 ["k"; "k"]
              [0; 0; 0; 0; 1; 1; 1; 1; 0; 0; 1; 1] "k") as (_ & Hle & Hth).
  split; [exact Hle|].
  eexists. split; [reflexivity|]. apply (Hth 0). reflexivity.
Defined.

Lemma returned_pair_is_from_f_witness :
  (∃ r, ("k", r) ∈ rets (sh four_callers) ∧
        (IInt 0, None) = (value r, err r)) ∧
  lookup_decides 0 false (IInt 0, None)
    [0; 0; 0; 0; 1; 1; 1; 1; 0; 0; 1; 1;
     0; 0; 0; 1; 0; 0; 1; 2; 1; 3; 1; 1]
    (start (fresh (New counter) 0) ["k"; "k"; "k"; "k"]).
Proof.
  apply (returned_pair_is_from_f counter 0 ["k"; "k"; "k"; "k"]
           [0; 0; 0; 0; 1; 1; 1; 1; 0; 0; 1; 1;
            0; 0; 0; 1; 0; 0; 1; 2; 1; 3; 1; 1]
           0 (mkThread "k" Halt (Result (IInt 0) None) false
                (Some (IInt 0, None))
                [EvLock; EvUnlock; EvCall; EvRet; EvLock; EvUnlock; EvUnlock])).
  - vm_compute. reflexivity.
  - reflexivity.
Defined.

Lemma f_runs_without_the_mutex_witness :
  unlocked_calls false false [EvLock; EvUnlock; EvCall] = true ∧
  (L33f = L33f → nlock [EvLock; EvUnlock; EvCall] =
                 nunlock [EvLock; EvUnlock; EvCall]).
Proof.
  apply (f_runs_without_the_mutex (fresh (New counter) 0) ["k"]
           [0; 0; 0; 0; 0] 0
           (mkThread "k" L33f zero false None [EvLock; EvUnlock; EvCall])).
  vm_compute. reflexivity.
Defined.

Lemma stored_key_stays_witness :
  is_Some (cache (memo (sh (run [1; 0; 0] second_stored))) !! "k") ∧
  cache (memo (sh (run [1; 0; 0] second_stored))) !! "k" =
    Some (Result (IInt 1) None).
Proof.
  destruct (stored_key_stays second_stored [1; 0; 0] "k" (Result (IInt 1) None))
    as [Hin Hsame].
  - vm_compute. reflexivity.
  - split; [exact Hin|]. apply Hsame.
    unfold settled. apply (bool_decide_unpack _). vm_compute. reflexivity.
Defined.

Lemma Get_writes_own_key_only_witness :
  cache (memo (sh (run (replicate 11 0)
    (start (fresh (mkMemo counter false {["b" := Result (IString "x") None]}) 0)
       ["a"])))) !! "b" = Some (Result (IString "x") None).
Proof.
  rewrite (proj2 (Get_writes_own_key_only
    (fresh (mkMemo counter false {["b" := Result (IString "x") None]}) 0)
    ["a"] (replicate 11 0) "b")).
  - vm_compute. reflexivity.
  - apply (bool_decide_unpack _). vm_compute. reflexivity.
Defined.

Lemma Get_releases_once_too_often_witness :
  is_fatal (Get "k" (fresh (New counter) 0)) = true ∧
  nunlock [EvLock; EvUnlock; EvCall; EvRet; EvLock; EvUnlock; EvUnlock] =
  nlock [EvLock; EvUnlock; EvCall; EvRet; EvLock; EvUnlock; EvUnlock] + 1.
Proof.
  destruct (Get_releases_once_too_often counter ∅ 0 [] [] "k"
              ["k"; "k"; "k"; "k"]
              [0; 0; 0; 0; 1; 1; 1; 1; 0; 0; 1; 1;
               0; 0; 0; 1; 0; 0; 1; 2; 1; 3; 1; 1]
              0 (mkThread "k" Halt (Result (IInt 0) None) false
                   (Some (IInt 0, None))
                   [EvLock; EvUnlock; EvCall; EvRet; EvLock; EvUnlock;
                    EvUnlock])) as [Hfatal Hsurplus].
  split; [exact Hfatal|]. apply Hsurplus.
  - vm_compute. reflexivity.
  - reflexivity.
Defined.

Lemma Get_nil_nil_alone_witness :
  is_fatal (Get "k" (fresh (New nil_nil) ())) = true ∧
  is_fatal (Get "k" (mkShared (mkMemo nil_nil false
                        {["k" := Result INil None]}) () ["k"]
                        [("k", Result INil None)])) = true.
Proof.
  destruct (Get_nil_nil_alone nil_nil ∅ () () [] [] "k" eq_refl) as [H1 H2].
  split.
  - replace (fresh (New nil_nil) ())
      with (mkShared (mkMemo nil_nil false (delete "k" ∅)) () [] []).
    + rewrite H1. reflexivity.
    + unfold fresh, New. by rewrite delete_empty.
  - replace ({["k" := Result INil None]} : gmap string result)
      with (<["k" := Result INil None]> (delete "k" (∅ : gmap string result))).
    + simpl in H2. rewrite H2. reflexivity.
    + by rewrite delete_empty.
Defined.

Lemma not_all_return_witness :
  ¬ Forall (λ th, pc th = Halt)
      (threads (run (replicate 11 0 ++ replicate 11 1)
                  (start (fresh (New counter) 0) ["k"; "k"]))).
Proof.
  apply (not_all_return (replicate 11 0 ++ replicate 11 1)
           (fresh (New counter) 0) ["k"; "k"]).
  - reflexivity.
  - discriminate.
Defined.

Lemma mutual_exclusion_up_to_line_38_witness :
  in_critical (run [0; 0; 0; 0; 1; 1; 1; 1; 0; 0; 1; 1; 0; 0]
                 (start (fresh (New counter) 0) ["k"; "k"])) =
    (if mu (memo (sh (run [0; 0; 0; 0; 1; 1; 1; 1; 0; 0; 1; 1; 0; 0]
                        (start (fresh (New counter) 0) ["k"; "k"]))))
     then 1 else 0) ∧
  in_critical (run [0; 0; 0; 0; 1; 1; 1; 1; 0; 0; 1; 1; 0; 0]
                 (start (fresh (New counter) 0) ["k"; "k"])) ≤ 1.
Proof.
  apply (mutual_exclusion_up_to_line_38 (fresh (New counter) 0) ["k"; "k"]
           [0; 0; 0; 0; 1; 1; 1; 1; 0; 0; 1; 1; 0; 0]).
  - reflexivity.
  - apply (bool_decide_unpack _). vm_compute. reflexivity.
Defined.

Lemma first_fatal_error_is_at_line_38_witness :
  ∃ th c',
    threads (run (replicate 9 0) (start (fresh (New counter) 0) ["k"])) !! 0
      = Some th ∧
    step 0 (run (replicate 9 0) (start (fresh (New counter) 0) ["k"]))
      = Some c' ∧
    fatal c' = true ∧ pc th = L38.
Proof.
  destruct (step 0 (run (replicate 9 0) (start (fresh (New counter) 0) ["k"])))
    as [c'|] eqn:E; [|by vm_compute in E].
  assert (fatal c' = true) as Hfatal.
  { vm_compute in E. by injection E as <-. }
  eexists _, c'. split; [reflexivity|]. split; [reflexivity|].
  split; [exact Hfatal|].
  eapply (first_fatal_error_is_at_line_38 (fresh (New counter) 0) ["k"]
            (replicate 9 0) 0 _ c'); [reflexivity| |reflexivity|exact E|exact Hfatal].
  apply (bool_decide_unpack _). vm_compute. reflexivity.
Defined.

Lemma some_call_can_move_until_fatal_witness :
  ∃ t c', step t (run [0; 1; 0] (start (fresh (New counter) 0) ["k"; "k"]))
          = Some c'.
Proof.
  apply (some_call_can_move_until_fatal (fresh (New counter) 0) ["k"; "k"]
           [0; 1; 0]).
  - reflexivity.
  - discriminate.
  - vm_compute. reflexivity.
Defined.

Lemma stored_pair_is_from_f_witness :
  ("k", Result (IInt 1) None) ∈
    rets (sh (run [0; 0; 0; 0; 1; 1; 1; 1; 0; 0; 1; 1; 0; 0; 0; 1; 1]
                (start (fresh (New counter) 0) ["k"; "k"]))).
Proof.
  apply (stored_pair_is_from_f counter 0 ["k"; "k"]
           [0; 0; 0; 0; 1; 1; 1; 1; 0; 0; 1; 1; 0; 0; 0; 1; 1]).
  vm_compute. reflexivity.
Defined.

Lemma function_of_the_key_is_memoized_witness :
  cache (memo (sh (run [0; 0; 0; 0; 0; 0; 0; 0; 0; 1; 0; 0]
                     (start (fresh (New nil_nil) ()) ["k"; "k"])))) !! "k" =
    Some (Result INil None) ∧
  (INil, None) = (value (Result INil None), err (Result INil None)).
Proof.
  destruct (function_of_the_key_is_memoized nil_nil (λ _, Result INil None) ()
              ["k"; "k"] [0; 0; 0; 0; 0; 0; 0; 0; 0; 1; 0; 0]
              (λ _ _, eq_refl)) as [Hmap Hout].
  split.
  - destruct (cache (memo (sh (run [0; 0; 0; 0; 0; 0; 0; 0; 0; 1; 0; 0]
                (start (fresh (New nil_nil) ()) ["k"; "k"])))) !! "k")
      as [r|] eqn:E; [|by vm_compute in E].
    by rewrite (Hmap "k" r E).
  - apply (Hout 0 (mkThread "k" Halt (Result INil None) false
                     (Some (INil, None))
                     [EvLock; EvUnlock; EvCall; EvRet; EvLock; EvUnlock;
                      EvUnlock])).
    + vm_compute. reflexivity.
    + reflexivity.
Defined.

Lemma call_that_hit_only_reads_witness :
  ∃ c',
    step 0 (run [0; 0]
              (start (fresh (mkMemo counter false
                               {["k" := Result (IInt 7) None]}) 0) ["k"]))
      = Some c' ∧
    cache (memo (sh c')) = {["k" := Result (IInt 7) None]}.
Proof.
  destruct (step 0 (run [0; 0]
              (start (fresh (mkMemo counter false
                               {["k" := Result (IInt 7) None]}) 0) ["k"])))
    as [c'|] eqn:E; [|by vm_compute in E].
  exists c'. split; [reflexivity|].
  destruct (call_that_hit_only_reads
              (fresh (mkMemo counter false {["k" := Result (IInt 7) None]}) 0)
              ["k"] [0; 0] 0
              (mkThread "k" L31 (Result (IInt 7) None) true None [EvLock])
              c') as (Hcache & _).
  - vm_compute. reflexivity.
  - reflexivity.
  - exact E.
  - rewrite Hcache. vm_compute. reflexivity.
Defined.

End memo.

(** * The bank account of the notes *)
Module bank_facts.

Import bank.
Local Open Scope Z_scope.

Lemma wrap_spec (z : Z) :
  ∃ q, wrap z = z + 18446744073709551616 * q ∧ is_int (wrap z).
Proof.
  unfold wrap, is_int, MinInt, MaxInt.
  exists (- ((z + 9223372036854775808) / 18446744073709551616)).
  pose proof (Z.div_mod (z + 9223372036854775808) 18446744073709551616).
  pose proof (Z.mod_pos_bound (z + 9223372036854775808) 18446744073709551616).
  lia.
Qed.

Lemma wrap_id (z : Z) : is_int z → wrap z = z.
Proof.
  unfold wrap, is_int, MinInt, MaxInt. intros H.
  rewrite Z.mod_small; lia.
Qed.

(** Two results that differ by a multiple of [2^64] wrap to the same
    [int]. *)
Lemma wrap_congr (x y q : Z) :
  x = y + 18446744073709551616 * q → wrap x = wrap y.
Proof.
  intros ->. destruct (wrap_spec (y + 18446744073709551616 * q)) as (q1 & H1 & R1).
  destruct (wrap_spec y) as (q2 & H2 & R2).
  unfold is_int, MinInt, MaxInt in *. lia.
Qed.

Lemma Deposit_comm (a1 a2 b : Z) :
  Deposit a1 (Deposit a2 b) = Deposit a2 (Deposit a1 b).
Proof.
  unfold Deposit.
  destruct (wrap_spec (b + a2)) as (q2 & -> & _).
  destruct (wrap_spec (b + a1)) as (q1 & -> & _).
  apply (wrap_congr _ _ (q2 - q1)). lia.
Qed.

(** The goroutine machine, run on one [Withdraw] alone, is [Withdraw]. *)
Lemma Withdraw_agrees_with_run (a b : Z) :
  run (replicate 5 0%nat) (mkState b [InWithdraw a Wdeposit None]) =
  mkState (Withdraw a b).2 [Returned (Some (Withdraw a b).1)].
Proof.
  unfold Withdraw, Deposit, Balance. simpl. unfold step. simpl.
  destruct (wrap (b + wrap (- a)) <? 0) eqn:E; simpl; [|done].
  unfold step. simpl. done.
Qed.

Lemma Withdraw_checks_the_funds_aux (a b : Z) :
  is_int a → is_int b → 0 ≤ a → 0 ≤ b →
  Withdraw a b = if a <=? b then (true, b - a) else (false, b).
Proof.
  unfold is_int, MinInt, MaxInt. intros Ha Hb Ha0 Hb0.
  unfold Withdraw, Deposit, Balance.
  rewrite (wrap_id (- a)) by (unfold is_int, MinInt, MaxInt; lia).
  rewrite (wrap_id (b + - a)) by (unfold is_int, MinInt, MaxInt; lia).
  destruct (a <=? b) eqn:E.
  - apply Z.leb_le in E.
    destruct (b + - a <? 0) eqn:E'; [apply Z.ltb_lt in E'; lia|].
    f_equal; lia.
  - apply Z.leb_gt in E.
    destruct (b + - a <? 0) eqn:E'; [|apply Z.ltb_ge in E'; lia].
    f_equal. rewrite wrap_id by (unfold is_int, MinInt, MaxInt; lia). lia.
Qed.

(** X9: within the amounts a bank deals in, [Withdraw] is what its name says:
    for a non-negative balance and a non-negative amount it reports
    whether the funds suffice, takes the amount off the balance if they
    do, and leaves the balance as it was if they do not. *)
Theorem Withdraw_checks_the_funds (a b : Z) :
  is_int a → is_int b → 0 ≤ a → 0 ≤ b →
  Withdraw a b = if a <=? b then (true, b - a) else (false, b).
Proof.
  apply Withdraw_checks_the_funds_aux.
Qed.

(** X10: whatever the amount, negative or so large that the arithmetic wraps
    around, a [Withdraw] that runs alone never leaves a non-negative
    balance negative, and a [Withdraw] that reports [false] leaves the
    balance exactly as it found it. *)
Theorem Withdraw_keeps_the_balance_non_negative (a b : Z) :
  is_int b → 0 ≤ b →
  0 ≤ (Withdraw a b).2 ∧ is_int (Withdraw a b).2 ∧
  ((Withdraw a b).1 = false → (Withdraw a b).2 = b).
Proof.
  intros Hb Hb0. unfold Withdraw, Deposit, Balance.
  destruct (wrap (b + wrap (- a)) <? 0) eqn:E; simpl.
  - assert (wrap (wrap (b + wrap (- a)) + a) = b) as ->; [|done].
    rewrite <- (wrap_id b Hb) at 2.
    destruct (wrap_spec (- a)) as (q1 & -> & _).
    destruct (wrap_spec (b + (- a + 18446744073709551616 * q1)))
      as (q2 & -> & _).
    apply (wrap_congr _ _ (q1 + q2)). lia.
  - apply Z.ltb_ge in E. split; [done|]. split; [|done].
    by destruct (wrap_spec (b + wrap (- a))) as (q & _ & R).
Qed.

(** ** Goroutines on the balance *)

Lemma bank_run_inv (P : state → Prop) :
  (∀ t c c', P c → step t c = Some c' → P c') →
  ∀ sched c, P c → P (run sched c).
Proof.
  intros Hstep sched. induction sched as [|t sched IH]; intros c Hc; simpl.
  - done.
  - destruct (step t c) as [c'|] eqn:E; eauto.
Qed.

Lemma step_two_deposits (b a1 a2 : Z) (t : nat) (c c' : state) :
  two_deposits b a1 a2 c → step t c = Some c' → two_deposits b a1 a2 c'.
Proof.
  unfold two_deposits, step. destruct c as [bal gs]. simpl.
  destruct gs as [|g1 [|g2 [|g3 gs]]]; try done;
    destruct g1 as [x [v|]|x l s|[r|]]; try done;
    destruct g2 as [y [v'|]|y l' s'|[r'|]]; try done;
    destruct t as [|[|t]]; simpl; try done;
    intros Hinv [= <-]; simpl; intuition (subst; auto).
Qed.

(** X11: two concurrent deposits: however [Deposit(a1)] and [Deposit(a2)] are
    interleaved, once both have returned the balance holds both amounts
    or has lost exactly one of them; and the schedule in which both read
    before either writes does lose the first. *)
Theorem two_deposits_may_lose_one (b a1 a2 : Z) (sched : list nat) :
  (goroutines (run sched (mkState b [InDeposit a1 None; InDeposit a2 None])) =
     [Returned None; Returned None] →
   balance (run sched (mkState b [InDeposit a1 None; InDeposit a2 None])) ∈
     [Deposit a2 (Deposit a1 b); Deposit a1 b; Deposit a2 b]) ∧
  run [0; 1; 0; 1]%nat (mkState b [InDeposit a1 None; InDeposit a2 None]) =
    mkState (Deposit a2 b) [Returned None; Returned None].
Proof.
  split; [|done].
  intros Hdone.
  assert (two_deposits b a1 a2
            (run sched (mkState b [InDeposit a1 None; InDeposit a2 None])))
    as Hinv.
  { apply bank_run_inv; [apply step_two_deposits|]. by unfold two_deposits. }
  unfold two_deposits in Hinv. rewrite Hdone in Hinv.
  rewrite (Deposit_comm a1 a2) in Hinv.
  rewrite !elem_of_cons. intuition auto.
Qed.

(** X12: [Withdraw] is not atomic: with funds [b] that cover [small] but not
    [big], a [Withdraw(small)] that runs while a [Withdraw(big)] is
    between its [Deposit(-big)] and its refund is rejected, although run
    by itself it is granted. *)
Theorem Withdraw_rejects_a_covered_amount (b big small : Z) :
  0 ≤ small → small ≤ b → b < big → big + small ≤ MaxInt →
  run [0; 0; 1; 1; 1; 1; 1; 0; 0; 0]%nat
    (mkState b [InWithdraw big Wdeposit None; InWithdraw small Wdeposit None]) =
    mkState b [Returned (Some false); Returned (Some false)] ∧
  Withdraw small b = (true, b - small).
Proof.
  intros H0 Hle Hlt Hmax.
  assert (∀ z, MinInt ≤ z ≤ MaxInt → wrap z = z) as Hid.
  { intros z Hz. by apply wrap_id. }
  unfold MinInt, MaxInt in *.
  split.
  - unfold run, step. simpl.
    rewrite (Hid (- big)) by lia.
    rewrite (Hid (b + - big)) by lia.
    rewrite (Hid (- small)) by lia.
    rewrite (Hid (b + - big + - small)) by lia.
    destruct (b + - big + - small <? 0) eqn:E1;
      [|apply Z.ltb_ge in E1; lia].
    simpl.
    replace (wrap (b + - big + - small + small)) with (b + - big)
      by (rewrite Hid; lia).
    destruct (b + - big <? 0) eqn:E2; [|apply Z.ltb_ge in E2; lia].
    simpl.
    replace (wrap (b + - big + big)) with b by (rewrite Hid; lia).
    done.
  - rewrite Withdraw_checks_the_funds_aux; [|unfold is_int, MinInt, MaxInt; lia..].
    destruct (small <=? b) eqn:E; [done|apply Z.leb_gt in E; lia].
Qed.

(** ** The theorems at concrete amounts *)

Lemma Withdraw_checks_the_funds_witness :
  Withdraw 30 100 = (true, 70) ∧ Withdraw 130 100 = (false, 100).
Proof.
  split.
  - apply (Withdraw_checks_the_funds 30 100);
      unfold is_int, MinInt, MaxInt; lia.
  - apply (Withdraw_checks_the_funds 130 100);
      unfold is_int, MinInt, MaxInt; lia.
Defined.

Lemma Withdraw_keeps_the_balance_non_negative_witness :
  0 ≤ (Withdraw MinInt 100).2 ∧ is_int (Withdraw MinInt 100).2 ∧
  ((Withdraw MinInt 100).1 = false → (Withdraw MinInt 100).2 = 100).
Proof.
  apply (Withdraw_keeps_the_balance_non_negative MinInt 100).
  - unfold is_int, MinInt, MaxInt. lia.
  - lia.
Defined.

Lemma two_deposits_may_lose_one_witness :
  balance (run [1; 0; 0; 1]%nat
             (mkState 100 [InDeposit 10 None; InDeposit 20 None])) ∈
    [Deposit 20 (Deposit 10 100); Deposit 10 100; Deposit 20 100].
Proof.
  apply (two_deposits_may_lose_one 100 10 20 [1; 0; 0; 1]%nat).
  reflexivity.
Defined.

Lemma Withdraw_rejects_a_covered_amount_witness :
  run [0; 0; 1; 1; 1; 1; 1; 0; 0; 0]%nat
    (mkState 100 [InWithdraw 150 Wdeposit None; InWithdraw 30 Wdeposit None]) =
    mkState 100 [Returned (Some false); Returned (Some false)] ∧
  Withdraw 30 100 = (true, 100 - 30).
Proof.
  apply (Withdraw_rejects_a_covered_amount 100 150 30);
    unfold MaxInt; lia.
Defined.

End bank_facts.
